(** * xnumon: the bootstrap entry point and the audit pipeline it starts

    The first part embeds [main] of [xnumon.c]: the two [getopt] passes,
    the configuration load, the privilege and policy set-up, the pidfile
    and the hand-over to [evtloop_run].  Calls into the rest of the program
    and into the operating system are recorded in a trace, and their
    results are taken from an interface ([Platform]).

    The second part models the correlation pipeline that [evtloop_run]
    drives (process table, per-file join, policy filter, sink), whose
    sources are not part of [xnumon.c], from its specification. *)

From Stdlib Require Import Ascii String ZArith List.
From stdpp Require Import base numbers option list strings gmap.

Local Open Scope Z_scope.
Local Open Scope string_scope.

(* ===================================================================== *)
(** ** getopt(3), BSD flavour *)
(* ===================================================================== *)

Module Getopt.

(** What [strchr(ostr, optopt)] followed by the test [oli[1] == ':']
    finds out about an option letter. *)
Inductive optkind : Type := NoSuchOpt | Flag | WithArg.

Fixpoint lookup_opt (ostr : string) (c : ascii) : optkind :=
  match ostr with
  | EmptyString => NoSuchOpt
  | String a rest =>
      if Ascii.eqb a c
      then match rest with
           | String d _ => if Ascii.eqb d ":" then WithArg else Flag
           | EmptyString => Flag
           end
      else lookup_opt rest c
  end.

Definition BADCH : ascii := "?"%char.

(** One return of [getopt]: the option letter and [optarg] (NULL for a
    flag; left as NULL here for [BADCH], where the caller does not read
    it). *)
Definition ret : Type := ascii * option string.

(** How the scan of one argv element ended. *)
Inductive scan_end : Type :=
| ElementDone      (* place ran empty: ++optind *)
| UsedNext         (* optarg = nargv[++optind]; ++optind *)
| ArgAbsent.       (* nargc <= ++optind: BADCH, scanning is over *)

(** The letters of one element after its leading '-'; [next] is the
    following argv element, if there is one. *)
Fixpoint scan_place (ostr place : string) (next : option string)
  : list ret * scan_end :=
  match place with
  | EmptyString => ([], ElementDone)
  | String optopt place' =>
      let continue (r : ret) :=
        match place' with
        | EmptyString => ([r], ElementDone)
        | _ => let '(rs, e) := scan_place ostr place' next in (r :: rs, e)
        end in
      if Ascii.eqb optopt ":" then continue (BADCH, None)
      else match lookup_opt ostr optopt with
           | NoSuchOpt => continue (BADCH, None)
           | Flag => continue (optopt, None)
           | WithArg =>
               match place' with
               | String _ _ => ([(optopt, Some place')], ElementDone)
               | EmptyString =>
                   match next with
                   | Some a => ([(optopt, Some a)], UsedNext)
                   | None => ([(BADCH, None)], ArgAbsent)
                   end
               end
           end
  end.

(** All returns of [getopt] up to the first -1, scanning
    [nargv[optind..]], and the elements left at [nargv[optind..]] when
    -1 is returned. *)
Fixpoint scan_args (ostr : string) (args : list string)
  : list ret * list string :=
  match args with
  | [] => ([], [])
  | a :: rest =>
      match a with
      | EmptyString => ([], args)
      | String c place =>
          if negb (Ascii.eqb c "-") then ([], args)
          else if String.eqb place "" then ([], args)
          else if String.eqb place "-" then ([], rest)
          else
            match rest with
            | [] => (fst (scan_place ostr place None), [])
            | n :: rest' =>
                let '(rs, e) := scan_place ostr place (Some n) in
                match e with
                | ElementDone =>
                    let '(rs', ops) := scan_args ostr rest in
                    ((rs ++ rs')%list, ops)
                | UsedNext =>
                    let '(rs', ops) := scan_args ostr rest' in
                    ((rs ++ rs')%list, ops)
                | ArgAbsent => (rs, [])
                end
            end
      end
  end.

(** A full pass with [optind = 1] (and [optreset = 1]): [argv[0]] is
    skipped. *)
Definition getopt_pass (argv : list string) (ostr : string)
  : list ret * list string :=
  scan_args ostr (tail argv).

End Getopt.

Definition OPTSTRING : string := "o:l:f:1mdc:Vh".
Definition XNUMON_PIDFILE : string := "/var/run/xnumon.pid".

Definition EXIT_SUCCESS : Z := 0.
Definition EXIT_FAILURE : Z := 1.
Definition EWOULDBLOCK : Z := 35.

(* ===================================================================== *)
(** ** The interfaces [main] is linked against *)
(* ===================================================================== *)

(** [config_t] (config.h).  [main] reads [path] and [limit_nofile] and
    writes [launchd_mode]; every other field is kept in [cfg_rest]. *)
Record config_t (R : Type) : Type := mkConfig {
  cfg_path : string;
  cfg_launchd_mode : bool;
  cfg_limit_nofile : Z;
  cfg_rest : R;
}.
Arguments mkConfig {R}.
Arguments cfg_path {R}.
Arguments cfg_launchd_mode {R}.
Arguments cfg_limit_nofile {R}.
Arguments cfg_rest {R}.

Definition set_launchd_mode {R} (c : config_t R) (b : bool) : config_t R :=
  mkConfig (cfg_path c) b (cfg_limit_nofile c) (cfg_rest c).

(** Return values of the functions declared in config.h, sys.h, policy.h
    and evtloop.h and of the libc calls whose result [main] tests.  A
    [config_str] call hands back its return value and the updated object. *)
Class Platform (R : Type) : Type := {
  strdup : string → option string;
  config_new : option string → option (config_t R);
  config_str : config_t R → string → string → Z * config_t R;
  getuid : Z;
  setuid : Z → Z;
  policy_task_sched_priority : Z;
  policy_thread_diskio_important : Z;
  sys_limit_nofile : Z → Z;
  sys_pidf_open : string → Z;
  errno_after_pidf_open : Z;
  sys_pidf_write : Z → Z;
  evtloop_run : config_t R → Z;
}.

Inductive stream : Type := Stdout | Stderr.

Inductive fmtarg : Type := AStr (s : string) | ANum (n : Z).

(** What [main] does to the outside, in program order.  The format strings
    are kept as they are spelled in the source. *)
Inductive event (R : Type) : Type :=
| EvStrdup (s : string)
| EvFprintf (f : stream) (fmt : string) (args : list fmtarg)
| EvFversion (f : stream)
| EvFusage (f : stream) (argv0 : string)
| EvDebugInit
| EvUmask (mask : Z)
| EvConfigNew (cfgpath : option string)
| EvFreeCfgpath
| EvConfigStr (key value : string)
| EvSetLaunchdMode (b : bool)
| EvGetuid
| EvSetuid (uid : Z)
| EvTaskSchedPriority
| EvThreadDiskioImportant
| EvLimitNofile (n : Z)
| EvPidfOpen (path : string)
| EvPidfWrite (fd : Z)
| EvEvtloopRun (cfg : config_t R)
| EvPidfClose (fd : Z) (path : string)
| EvConfigFree
| EvDebugFini
| EvExit (code : Z).
Arguments EvStrdup {R}.
Arguments EvFprintf {R}.
Arguments EvFversion {R}.
Arguments EvFusage {R}.
Arguments EvDebugInit {R}.
Arguments EvUmask {R}.
Arguments EvConfigNew {R}.
Arguments EvFreeCfgpath {R}.
Arguments EvConfigStr {R}.
Arguments EvSetLaunchdMode {R}.
Arguments EvGetuid {R}.
Arguments EvSetuid {R}.
Arguments EvTaskSchedPriority {R}.
Arguments EvThreadDiskioImportant {R}.
Arguments EvLimitNofile {R}.
Arguments EvPidfOpen {R}.
Arguments EvPidfWrite {R}.
Arguments EvEvtloopRun {R}.
Arguments EvPidfClose {R}.
Arguments EvConfigFree {R}.
Arguments EvDebugFini {R}.
Arguments EvExit {R}.

(* ===================================================================== *)
(** ** Local variables, control flow and the monad of [main] *)
(* ===================================================================== *)

(** The locals of [main] that outlive a statement, and the trace.  [cfg]
    and [rv] are indeterminate in C until lines 119 and 116; no path reads
    them earlier. *)
Record state (R : Type) : Type := mkState {
  cfgpath : option string;
  cfg : option (config_t R);
  pidfd : Z;
  rv : Z;
  trace : list (event R);
}.
Arguments mkState {R}.
Arguments cfgpath {R}.
Arguments cfg {R}.
Arguments pidfd {R}.
Arguments rv {R}.
Arguments trace {R}.

Definition initial_state {R} : state R := mkState None None (-1) 0 [].

(** A statement falls through, jumps to [errout], or calls [exit]. *)
Inductive flow (A : Type) : Type :=
| Normal (a : A)
| Errout
| Exited (code : Z).
Arguments Normal {A}.
Arguments Errout {A}.
Arguments Exited {A}.

Definition M (R A : Type) : Type := state R → flow A * state R.

#[global] Instance M_ret {R} : MRet (M R) := λ A a s, (Normal a, s).

#[global] Instance M_bind {R} : MBind (M R) := λ A B k m s,
  match m s with
  | (Normal a, s') => k a s'
  | (Errout, s') => (Errout, s')
  | (Exited c, s') => (Exited c, s')
  end.

Definition emit {R} (e : event R) : M R unit :=
  λ s, (Normal (),
        mkState (cfgpath s) (cfg s) (pidfd s) (rv s) (trace s ++ [e])%list).

Definition goto_errout {R A} : M R A := λ s, (Errout, s).

Definition exit {R A} (code : Z) : M R A :=
  λ s, (Exited code,
        mkState (cfgpath s) (cfg s) (pidfd s) (rv s)
                (trace s ++ [EvExit code])%list).

Definition set_cfgpath {R} (p : option string) : M R unit :=
  λ s, (Normal (), mkState p (cfg s) (pidfd s) (rv s) (trace s)).
Definition set_cfg {R} (c : option (config_t R)) : M R unit :=
  λ s, (Normal (), mkState (cfgpath s) c (pidfd s) (rv s) (trace s)).
Definition set_pidfd {R} (fd : Z) : M R unit :=
  λ s, (Normal (), mkState (cfgpath s) (cfg s) fd (rv s) (trace s)).
Definition set_rv {R} (r : Z) : M R unit :=
  λ s, (Normal (), mkState (cfgpath s) (cfg s) (pidfd s) r (trace s)).
Definition get {R} : M R (state R) := λ s, (Normal s, s).

Definition fprintf {R} (f : stream) (fmt : string) (args : list fmtarg)
  : M R unit := emit (EvFprintf f fmt args).

Fixpoint for_each {R A} (body : A → M R unit) (l : list A) : M R unit :=
  match l with
  | [] => mret ()
  | x :: l' => body x;; for_each body l'
  end.

(* ===================================================================== *)
(** ** [main] *)
(* ===================================================================== *)

(** The [case] labels of the two [switch (ch)] statements. *)
Inductive optcase : Type :=
| Case_o | Case_l | Case_f | Case_1 | Case_m | Case_d
| Case_c | Case_V | Case_h | Case_qmark | Case_default.

Definition switch (ch : ascii) : optcase :=
  if Ascii.eqb ch "o" then Case_o
  else if Ascii.eqb ch "l" then Case_l
  else if Ascii.eqb ch "f" then Case_f
  else if Ascii.eqb ch "1" then Case_1
  else if Ascii.eqb ch "m" then Case_m
  else if Ascii.eqb ch "d" then Case_d
  else if Ascii.eqb ch "c" then Case_c
  else if Ascii.eqb ch "V" then Case_V
  else if Ascii.eqb ch "h" then Case_h
  else if Ascii.eqb ch "?" then Case_qmark
  else Case_default.

(** [optarg] as a C string; [getopt] sets it for every option declared
    with ':' ([getopt_sets_optarg] below), so the default is never
    read. *)
Definition arg_of (optarg : option string) : string := default "" optarg.

(** Lines 132-140: [p] runs to the first '='; the text before it is the
    key and the text after it the value. *)
Fixpoint split_at_eq (s : string) : option (string * string) :=
  match s with
  | EmptyString => None
  | String c s' =>
      if Ascii.eqb c "=" then Some ("", s')
      else match split_at_eq s' with
           | Some (k, v) => Some (String c k, v)
           | None => None
           end
  end.

Section Main.
Context {R : Type} {platform : Platform R}.

(** Lines 77-108. *)
Definition first_pass_case (argv0 : string) (o : Getopt.ret) : M R unit :=
  let '(ch, optarg) := o in
  match switch ch with
  | Case_o | Case_l | Case_f | Case_1 | Case_m | Case_d => mret ()
  | Case_c =>
      emit (EvStrdup (arg_of optarg));;
      set_cfgpath (strdup (arg_of optarg));;
      match strdup (arg_of optarg) with
      | None => fprintf Stderr "Out of memory!\n" [];; exit EXIT_FAILURE
      | Some _ => mret ()
      end
  | Case_V => emit (EvFversion Stdout);; exit EXIT_SUCCESS
  | Case_h => emit (EvFusage Stdout argv0);; exit EXIT_SUCCESS
  | Case_qmark => exit EXIT_FAILURE
  | Case_default => emit (EvFusage Stderr argv0);; exit EXIT_FAILURE
  end.

(** [cfg] is not NULL from line 126 on; the other branch is never
    taken there. *)
Definition with_cfg {A} (k : config_t R → M R A) : M R A :=
  λ s, match cfg s with
       | Some c => k c s
       | None => (Errout, s)
       end.

(** [config_str(cfg, key, value) == -1], with the object updated in
    place. *)
Definition call_config_str (key value : string) : M R bool :=
  with_cfg (λ c,
    emit (EvConfigStr key value);;
    set_cfg (Some (config_str c key value).2);;
    mret (bool_decide ((config_str c key value).1 = -1))).

(** Lines 128-183.  The store [*p = 0] of line 139 lands in an argv
    element that [getopt] has already consumed, so this pass scans what
    the first pass scanned. *)
Definition second_pass_case (o : Getopt.ret) : M R unit :=
  let '(ch, optarg) := o in
  match switch ch with
  | Case_o =>
      match split_at_eq (arg_of optarg) with
      | None => fprintf Stderr "Option -o missing value\n" [];; goto_errout
      | Some (key, value) =>
          failed ← call_config_str key value;
          if failed : bool
          then fprintf Stderr "Option -o invalid value\n" [];; goto_errout
          else mret ()
      end
  | Case_l =>
      failed ← call_config_str "log_format" (arg_of optarg);
      if failed : bool
      then fprintf Stderr "Option -l invalid fmt '%s'\n"
             [AStr (arg_of optarg)];; goto_errout
      else mret ()
  | Case_f =>
      failed ← call_config_str "log_destination" (arg_of optarg);
      if failed : bool
      then fprintf Stderr "Option -f invalid dst '%s'\n"
             [AStr (arg_of optarg)];; goto_errout
      else mret ()
  | Case_1 =>
      failed ← call_config_str "log_mode" "oneline";
      if failed : bool
      then fprintf Stderr "Option -1 internal error\n" [];; goto_errout
      else mret ()
  | Case_m =>
      failed ← call_config_str "log_mode" "multiline";
      if failed : bool
      then fprintf Stderr "Option -m internal error\n" [];; goto_errout
      else mret ()
  | Case_d =>
      with_cfg (λ c,
        emit (EvSetLaunchdMode true);;
        set_cfg (Some (set_launchd_mode c true)))
  | Case_c | Case_V | Case_h | Case_qmark | Case_default => mret ()
  end.

Definition umask_0027 : Z := 2 * 8 + 7.

(** Lines 113-126. *)
Definition load_configuration : M R unit :=
  emit EvDebugInit;;
  emit (EvFversion Stderr);;
  emit (EvUmask umask_0027);;
  set_rv (-1);;
  fprintf Stderr "Loading configuration:\n" [];;
  s ← get;
  emit (EvConfigNew (cfgpath s));;
  set_cfg (config_new (cfgpath s));;
  (if cfgpath s is Some _ then emit EvFreeCfgpath else mret ());;
  match config_new (cfgpath s) with
  | None => fprintf Stderr "Failed to load configuration!\n" [];; goto_errout
  | Some c => fprintf Stderr "Loaded '%s'\n" [AStr (cfg_path c)]
  end.

(** Lines 194-232. *)
Definition bootstrap : M R unit :=
  emit EvGetuid;;
  (if bool_decide (getuid ≠ 0)
   then emit (EvSetuid 0);;
        if bool_decide (setuid 0 = -1)
        then fprintf Stderr "Must be run with root privileges\n" [];;
             goto_errout
        else mret ()
   else mret ());;
  emit EvTaskSchedPriority;;
  (if bool_decide (policy_task_sched_priority = -1)
   then fprintf Stderr "Failed to set task sched priority\n" [];;
        goto_errout
   else mret ());;
  emit EvThreadDiskioImportant;;
  (if bool_decide (policy_thread_diskio_important = -1)
   then fprintf Stderr "Failed to set main thread diskio policy\n" [];;
        goto_errout
   else mret ());;
  with_cfg (λ c,
    emit (EvLimitNofile (cfg_limit_nofile c));;
    if bool_decide (sys_limit_nofile (cfg_limit_nofile c) = -1)
    then fprintf Stderr "Failed to limit open files to %zu\n"
           [ANum (cfg_limit_nofile c)];;
         goto_errout
    else mret ());;
  emit (EvPidfOpen XNUMON_PIDFILE);;
  set_pidfd (sys_pidf_open XNUMON_PIDFILE);;
  (if bool_decide (sys_pidf_open XNUMON_PIDFILE = -1)
   then fprintf Stderr "Failed to open pidfile%s\n"
          [AStr (if bool_decide (errno_after_pidf_open = EWOULDBLOCK)
                 then " - already running?" else "")];;
        goto_errout
   else mret ());;
  emit (EvPidfWrite (sys_pidf_open XNUMON_PIDFILE));;
  (if bool_decide (sys_pidf_write (sys_pidf_open XNUMON_PIDFILE) = -1)
   then fprintf Stderr "Failed to write pidfile\n" [];; goto_errout
   else mret ()).

(** Lines 234-237. *)
Definition run_event_loop : M R unit :=
  with_cfg (λ c,
    emit (EvEvtloopRun c);;
    set_rv (evtloop_run c);;
    if bool_decide (evtloop_run c = -1)
    then fprintf Stderr "Event loop returned error\n" []
    else mret ()).

(** Line 186: [argc > optind] once [getopt] has returned -1. *)
Definition operands_left (argv : list string) : bool :=
  match (Getopt.getopt_pass argv OPTSTRING).2 with
  | [] => false
  | _ :: _ => true
  end.

(** Lines 77-192: both option passes around the configuration load. *)
Definition configure (argv : list string) : M R unit :=
  let argv0 := default "" (head argv) in
  for_each (first_pass_case argv0) (Getopt.getopt_pass argv OPTSTRING).1;;
  load_configuration;;
  for_each second_pass_case (Getopt.getopt_pass argv OPTSTRING).1;;
  fprintf Stderr "Loaded configuration overrides from command line\n" [];;
  (if operands_left argv
   then emit (EvFusage Stderr argv0);; goto_errout
   else mret ()).

(** Lines 77-232: every step that has to succeed before the event loop
    is entered. *)
Definition startup (argv : list string) : M R unit :=
  configure argv;; bootstrap.

(** Lines 77-237: everything above the label [errout]. *)
Definition before_errout (argv : list string) : M R unit :=
  startup argv;; run_event_loop.

(** Lines 239-249. *)
Definition errout_block : M R unit :=
  s ← get;
  (if bool_decide (pidfd s ≠ -1)
   then emit (EvPidfClose (pidfd s) XNUMON_PIDFILE)
   else mret ());;
  (if cfg s is Some _ then emit EvConfigFree else mret ());;
  emit EvDebugFini;;
  (if bool_decide (rv s = -1)
   then fprintf Stderr "Fatal error, exiting\n" [];; exit EXIT_FAILURE
   else mret ());;
  exit EXIT_SUCCESS.

Definition main (argv : list string) : M R unit :=
  λ s, match before_errout argv s with
       | (Exited code, s') => (Exited code, s')
       | (_, s') => errout_block s'
       end.

(** The process as seen from outside: exit status and trace. *)
Definition exit_status (argv : list string) : option Z :=
  match (main argv initial_state).1 with
  | Exited code => Some code
  | _ => None
  end.

Definition run_trace (argv : list string) : list (event R) :=
  trace (main argv initial_state).2.

End Main.

(* ===================================================================== *)
(** ** Observations on traces *)
(* ===================================================================== *)

Definition is_evtloop_run {R} (e : event R) : bool :=
  match e with EvEvtloopRun _ => true | _ => false end.

(** The entry point changes the configuration object through
    [config_new], [config_str] and the store to [launchd_mode]. *)
Definition is_config_write {R} (e : event R) : bool :=
  match e with
  | EvConfigNew _ | EvConfigStr _ _ | EvSetLaunchdMode _ => true
  | _ => false
  end.

Definition is_config_override {R} (e : event R) : bool :=
  match e with
  | EvConfigStr _ _ | EvSetLaunchdMode _ => true
  | _ => false
  end.

Definition is_config_new {R} (e : event R) : bool :=
  match e with EvConfigNew _ => true | _ => false end.

Definition is_config_free {R} (e : event R) : bool :=
  match e with EvConfigFree => true | _ => false end.

(** Neither [config_new] nor an override. *)
Definition is_not_config_write {R} (e : event R) : bool :=
  negb (is_config_write e).

Definition any_event {R} (e : event R) : bool := true.

Definition is_task_sched {R} (e : event R) : bool :=
  match e with EvTaskSchedPriority => true | _ => false end.
Definition is_diskio {R} (e : event R) : bool :=
  match e with EvThreadDiskioImportant => true | _ => false end.
Definition is_limit_nofile {R} (e : event R) : bool :=
  match e with EvLimitNofile _ => true | _ => false end.
Definition is_pidf_open {R} (e : event R) : bool :=
  match e with EvPidfOpen _ => true | _ => false end.
Definition is_pidf_write {R} (e : event R) : bool :=
  match e with EvPidfWrite _ => true | _ => false end.
Definition is_pidf_close {R} (e : event R) : bool :=
  match e with EvPidfClose _ _ => true | _ => false end.
Definition is_getuid {R} (e : event R) : bool :=
  match e with EvGetuid => true | _ => false end.
Definition is_exit {R} (e : event R) : bool :=
  match e with EvExit _ => true | _ => false end.

(** The global bootstrap side effects: scheduler priority, disk-IO policy,
    descriptor limit, pidfile lock. *)
Definition is_bootstrap_effect {R} (e : event R) : bool :=
  is_task_sched e || is_diskio e || is_limit_nofile e ||
  is_pidf_open e || is_pidf_write e.

(** What lines 77-192 can do short of [exit]: option handling and the
    configuration load. *)
Definition is_configure_event {R} (e : event R) : bool :=
  match e with
  | EvStrdup _ | EvFprintf _ _ _ | EvFversion _ | EvFusage _ _
  | EvDebugInit | EvUmask _ | EvConfigNew _ | EvFreeCfgpath
  | EvConfigStr _ _ | EvSetLaunchdMode _ => true
  | _ => false
  end.

(** The events of each part of lines 77-192. *)
Definition is_first_pass_event {R} (e : event R) : bool :=
  match e with
  | EvStrdup _ | EvFprintf _ _ _ | EvFversion _ | EvFusage _ _ => true
  | _ => false
  end.

Definition is_load_event {R} (e : event R) : bool :=
  match e with
  | EvDebugInit | EvFversion _ | EvUmask _ | EvFprintf _ _ _
  | EvConfigNew _ | EvFreeCfgpath => true
  | _ => false
  end.

Definition is_second_pass_event {R} (e : event R) : bool :=
  match e with
  | EvConfigStr _ _ | EvSetLaunchdMode _ | EvFprintf _ _ _ | EvFusage _ _ =>
      true
  | _ => false
  end.

Definition count_of {R} (p : event R → bool) (t : list (event R)) : nat :=
  length (List.filter p t).

(** The trace up to, and from, the first event that satisfies [p]. *)
Fixpoint trace_before {R} (p : event R → bool) (t : list (event R))
  : list (event R) :=
  match t with
  | [] => []
  | e :: t' => if p e then [] else e :: trace_before p t'
  end.

Fixpoint trace_from {R} (p : event R → bool) (t : list (event R))
  : list (event R) :=
  match t with
  | [] => []
  | e :: t' => if p e then t else trace_from p t'
  end.

Definition is_pidf_close_of {R} (fd : Z) (path : string) (e : event R)
  : bool :=
  match e with
  | EvPidfClose fd' path' => bool_decide (fd' = fd) && String.eqb path' path
  | _ => false
  end.

(** The global bootstrap side effects each happen exactly once in the run
    with trace [t], and none of them at or after the entry into the event
    loop. *)
Definition bootstrap_exactly_once {R} (t : list (event R)) : Prop :=
  count_of is_task_sched t = 1%nat ∧
  count_of is_diskio t = 1%nat ∧
  count_of is_limit_nofile t = 1%nat ∧
  count_of is_pidf_open t = 1%nat ∧
  count_of is_bootstrap_effect (trace_from is_evtloop_run t) = 0%nat.

(** The override options, handled in the second pass. *)
Definition is_override (o : Getopt.ret) : bool :=
  match switch o.1 with
  | Case_o | Case_l | Case_f | Case_1 | Case_m | Case_d => true
  | _ => false
  end.

(** A statement is _quiet_ for [P] when it leaves [pidfd] alone and only
    adds [P] events to the trace, closed by the [exit] event when it
    exits. *)
Definition quiet {R A} (P : event R → bool) (m : M R A) : Prop :=
  ∀ s, pidfd (m s).2 = pidfd s ∧
       ∃ t, trace (m s).2 = (trace s ++ t)%list ∧
            match (m s).1 with
            | Exited c => ∃ t', t = (t' ++ [EvExit c])%list ∧ Forall P t'
            | _ => Forall P t
            end.

(** Past line 126 and up to [evtloop_run], [rv] stays -1 and [cfg] stays
    non-NULL, whatever the flow. *)
Definition stays_settled {R A} (m : M R A) : Prop :=
  ∀ s, rv s = -1 → is_Some (cfg s) →
       rv (m s).2 = -1 ∧ is_Some (cfg (m s).2).

(* ===================================================================== *)
(** ** Observations on the first pass and the configuration load *)
(* ===================================================================== *)

Definition is_strdup {R} (e : event R) : bool :=
  match e with EvStrdup _ => true | _ => false end.
Definition is_free_cfgpath {R} (e : event R) : bool :=
  match e with EvFreeCfgpath => true | _ => false end.
Definition is_setuid {R} (e : event R) : bool :=
  match e with EvSetuid _ => true | _ => false end.
Definition is_debug_init {R} (e : event R) : bool :=
  match e with EvDebugInit => true | _ => false end.
Definition is_debug_fini {R} (e : event R) : bool :=
  match e with EvDebugFini => true | _ => false end.
Definition is_umask {R} (e : event R) : bool :=
  match e with EvUmask _ => true | _ => false end.

(** The calls that create or open a file: the configuration load and the
    pidfile. *)
Definition touches_files {R} (e : event R) : bool :=
  is_config_new e || is_pidf_open e || is_pidf_write e.

(** Whether the character [c] occurs in [s]. *)
Fixpoint mentions (c : ascii) (s : string) : bool :=
  match s with
  | EmptyString => false
  | String a s' => Ascii.eqb a c || mentions c s'
  end.

Definition is_cfgpath_option (o : Getopt.ret) : bool :=
  match switch o.1 with Case_c => true | _ => false end.

(** The arguments of the -c options, in command-line order. *)
Definition cfgpath_args (l : list Getopt.ret) : list string :=
  List.map (λ o, arg_of o.2) (List.filter is_cfgpath_option l).

Section FirstPass.
Context {R : Type} {platform : Platform R}.

(** The options at which the loop of lines 77-108 is left through
    [exit]: -V, -h, '?', a letter without a [case], and a -c whose
    [strdup] returns NULL. *)
Definition stops_first_pass (o : Getopt.ret) : bool :=
  match switch o.1 with
  | Case_V | Case_h | Case_qmark | Case_default => true
  | Case_c => if strdup (arg_of o.2) is None then true else false
  | _ => false
  end.

(** The [case] of the first such option, if there is one. *)
Definition first_pass_stop (l : list Getopt.ret) : option optcase :=
  (λ o, switch o.1) <$> List.find stops_first_pass l.

(** What that [case] prints before it calls [exit], and the status. *)
Definition first_pass_exit (argv0 : string) (k : optcase)
  : list (event R) * Z :=
  match k with
  | Case_V => ([EvFversion Stdout], EXIT_SUCCESS)
  | Case_h => ([EvFusage Stdout argv0], EXIT_SUCCESS)
  | Case_qmark => ([], EXIT_FAILURE)
  | Case_c => ([EvFprintf Stderr "Out of memory!\n" []], EXIT_FAILURE)
  | _ => ([EvFusage Stderr argv0], EXIT_FAILURE)
  end.

(** [cfgpath] at line 119 when the first pass ran through: the copy of
    the last -c argument, NULL without -c. *)
Definition chosen_cfgpath (l : list Getopt.ret) : option string :=
  last (cfgpath_args l) ≫= strdup.

(** The calls of lines 113-126 for this [cfgpath]. *)
Definition load_events (cp : option string) : list (event R) :=
  ([EvDebugInit; EvFversion Stderr; EvUmask umask_0027;
    EvFprintf Stderr "Loading configuration:\n" []; EvConfigNew cp] ++
   (if cp is Some _ then [EvFreeCfgpath] else []) ++
   [match config_new cp with
    | None => EvFprintf Stderr "Failed to load configuration!\n" []
    | Some c => EvFprintf Stderr "Loaded '%s'\n" [AStr (cfg_path c)]
    end])%list.

(** The options the first pass has gone through when it stops. *)
Fixpoint before_stop (l : list Getopt.ret) : list Getopt.ret :=
  match l with
  | [] => []
  | o :: l' => if stops_first_pass o then [] else o :: before_stop l'
  end.

(** What applying one override option means, in the words of the usage
    text: the write it makes to the configuration object ... *)
Definition override_call (o : Getopt.ret) : list (event R) :=
  match switch o.1 with
  | Case_o =>
      match split_at_eq (arg_of o.2) with
      | Some (key, value) => [EvConfigStr key value]
      | None => []
      end
  | Case_l => [EvConfigStr "log_format" (arg_of o.2)]
  | Case_f => [EvConfigStr "log_destination" (arg_of o.2)]
  | Case_1 => [EvConfigStr "log_mode" "oneline"]
  | Case_m => [EvConfigStr "log_mode" "multiline"]
  | Case_d => [EvSetLaunchdMode true]
  | _ => []
  end.

(** ... and the object after that write. *)
Definition apply_override (c : config_t R) (o : Getopt.ret) : config_t R :=
  match switch o.1 with
  | Case_o =>
      match split_at_eq (arg_of o.2) with
      | Some (key, value) => (config_str c key value).2
      | None => c
      end
  | Case_l => (config_str c "log_format" (arg_of o.2)).2
  | Case_f => (config_str c "log_destination" (arg_of o.2)).2
  | Case_1 => (config_str c "log_mode" "oneline").2
  | Case_m => (config_str c "log_mode" "multiline").2
  | Case_d => set_launchd_mode c true
  | _ => c
  end.

End FirstPass.

(** The call [umask(0027)] of line 115. *)
Definition is_umask_0027 {R} (e : event R) : bool :=
  match e with EvUmask mask => Z.eqb mask umask_0027 | _ => false end.

(* ===================================================================== *)
(** ** A concrete platform, for running [main] *)
(* ===================================================================== *)

Module Demo.

(** The remaining configuration: the string keys set so far. *)
Definition rest : Type := list (string * string).

Definition default_cfgpath : string :=
  "/Library/Application Support/ch.roe.xnumon/configuration.plist".

Definition demo_config_str (c : config_t rest) (key value : string)
  : Z * config_t rest :=
  if String.eqb key "log_format" &&
     negb (String.eqb value "json" || String.eqb value "yaml")
  then (-1, c)
  else (0, mkConfig (cfg_path c) (cfg_launchd_mode c) (cfg_limit_nofile c)
                    ((key, value) :: cfg_rest c)).

(** The knobs a run can differ in: the real uid, and the results of
    [setuid], [sys_pidf_open], [sys_pidf_write] and [evtloop_run]. *)
Definition platform (uid setuid_rv pidf_open_rv pidf_write_rv loop_rv : Z)
  : Platform rest := {|
  strdup s := Some s;
  config_new p := Some (mkConfig (default default_cfgpath p) false 1024 []);
  config_str := demo_config_str;
  getuid := uid;
  setuid _ := setuid_rv;
  policy_task_sched_priority := 0;
  policy_thread_diskio_important := 0;
  sys_limit_nofile _ := 0;
  sys_pidf_open _ := pidf_open_rv;
  errno_after_pidf_open := if bool_decide (pidf_open_rv = -1)
                           then EWOULDBLOCK else 0;
  sys_pidf_write _ := pidf_write_rv;
  evtloop_run _ := loop_rv;
|}.

(** Root, free pidfile (descriptor 3), event loop ends cleanly. *)
Definition healthy : Platform rest := platform 0 0 3 0 0.
Definition loop_fails : Platform rest := platform 0 0 3 0 (-1).
Definition already_running : Platform rest := platform 0 0 (-1) 0 0.
Definition not_root : Platform rest := platform 501 (-1) 3 0 0.
Definition pidf_write_fails : Platform rest := platform 0 0 3 (-1) 0.

(** As [healthy], but out of memory at the first [strdup]. *)
Definition no_memory : Platform rest := {|
  strdup _ := None;
  config_new p := Some (mkConfig (default default_cfgpath p) false 1024 []);
  config_str := demo_config_str;
  getuid := 0;
  setuid _ := 0;
  policy_task_sched_priority := 0;
  policy_thread_diskio_important := 0;
  sys_limit_nofile _ := 0;
  sys_pidf_open _ := 3;
  errno_after_pidf_open := 0;
  sys_pidf_write _ := 0;
  evtloop_run _ := 0;
|}.

(** As [healthy], but no configuration file can be loaded. *)
Definition no_config : Platform rest := {|
  strdup s := Some s;
  config_new _ := None;
  config_str := demo_config_str;
  getuid := 0;
  setuid _ := 0;
  policy_task_sched_priority := 0;
  policy_thread_diskio_important := 0;
  sys_limit_nofile _ := 0;
  sys_pidf_open _ := 3;
  errno_after_pidf_open := 0;
  sys_pidf_write _ := 0;
  evtloop_run _ := 0;
|}.

Definition argv_plain : list string := ["xnumon"].
Definition argv_two_paths : list string :=
  ["xnumon"; "-c"; "/tmp/a.plist"; "-d"; "-c"; "/tmp/b.plist"].
Definition argv_unknown_option : list string := ["xnumon"; "-d"; "-x"; "-V"].
Definition argv_operand : list string := ["xnumon"; "-d"; "start"].
Definition argv_overrides : list string :=
  ["xnumon"; "-d"; "-c"; "/tmp/c.plist"; "-o"; "k=v"; "-l"; "yaml"].
Definition argv_overrides_swapped : list string :=
  ["xnumon"; "-d"; "-o"; "k=v"; "-l"; "yaml"; "-c"; "/tmp/c.plist"].
Definition argv_version : list string := ["xnumon"; "-V"].

End Demo.

(* ===================================================================== *)
(** ** The correlation pipeline behind [evtloop_run] *)
(* ===================================================================== *)

Module Pipeline.

(** Modelled from the spec: the decoded audit record of section 3, a
    tagged union with typed fields (the decoder and the event loop
    sources are missing; time stamps and checksum verdicts are left
    out). *)
Inductive AuditRecord : Type :=
| RFork (parent child : Z)
| RExec (pid : Z) (image : string) (argv : list string) (status : Z)
| RExit (pid : Z)
| ROpen (pid fd : Z) (path : string) (flags : Z)
| RWrite (pid fd : Z) (len : N)
| RClose (pid fd : Z).

(** Modelled from the spec: FileHandle of section 3 (fd, path, open
    flags, accumulated write length), with the degraded mark a gap
    leaves on an in-flight join (section 4.4). *)
Record FileHandle : Type := mkFileHandle {
  fh_fd : Z;
  fh_path : string;
  fh_flags : Z;
  fh_written : N;
  fh_degraded : bool;
}.

(** Modelled from the spec: ProcessEntry of section 3.  The parent is a
    weak back-reference, a key that may no longer be in the table. *)
Record ProcessEntry : Type := mkProcessEntry {
  pe_pid : Z;
  pe_gen : nat;
  pe_parent : option (Z * nat);
  pe_image : string;
  pe_exited : bool;
  pe_fds : gmap Z FileHandle;
}.

(** Modelled from the spec: the ProcessTable of sections 2 and 4.3,
    keyed by (pid, generation); [current] holds the generation a bare
    pid resolves to, [exited_queue] the exited entries, oldest first. *)
Record ProcessTable : Type := mkProcessTable {
  entries : gmap (Z * nat) ProcessEntry;
  current : gmap Z nat;
  exited_queue : list (Z * nat);
  overflows : nat;
}.

Definition empty_table : ProcessTable := mkProcessTable ∅ ∅ [] 0.

(** Modelled from the spec: SecurityEvent of section 3, a snapshot of
    the fields; a field a policy may strip, or that a degraded join does
    not know, is optional. *)
Inductive SecurityEvent : Type :=
| FileEvent (proc : Z * nat) (fd : Z) (path : option string)
            (written : option N) (degraded : bool)
| ExecEvent (proc : Z * nat) (image : option string)
            (argv : option (list string))
| ExecFailedEvent (proc : Z * nat) (image : option string) (status : Z).

(** Modelled from the spec: [lookup(pid)] of section 4.3, which resolves
    only the current generation. *)
Definition lookup (t : ProcessTable) (pid : Z) : option ProcessEntry :=
  g ← current t !! pid; entries t !! (pid, g).

(** Modelled from the spec: the identity (pid, generation) and the entry
    a pid resolves to, when that process has not exited (section 4.3). *)
Definition live (t : ProcessTable) (pid : Z)
  : option ((Z * nat) * ProcessEntry) :=
  g ← current t !! pid;
  e ← entries t !! (pid, g);
  if pe_exited e then None else Some ((pid, g), e).

(** Modelled from the spec: a fresh generation is the successor of the
    last one handed out for the pid (section 3: generations increment
    only at a genesis). *)
Definition next_gen (t : ProcessTable) (pid : Z) : nat :=
  S (default 0%nat (current t !! pid)).

(** Modelled from the spec: an entry is replaced under its identity
    (section 3: identity is (pid, generation), never pid alone). *)
Definition put (t : ProcessTable) (k : Z * nat) (e : ProcessEntry)
  : ProcessTable :=
  mkProcessTable (<[k := e]> (entries t)) (current t)
                 (exited_queue t) (overflows t).

(** Modelled from the spec: the mutations of one entry (section 4.3):
    its descriptor table, its image, its exit. *)
Definition set_fds (e : ProcessEntry) (fds : gmap Z FileHandle)
  : ProcessEntry :=
  mkProcessEntry (pe_pid e) (pe_gen e) (pe_parent e) (pe_image e)
                 (pe_exited e) fds.

Definition set_image (e : ProcessEntry) (image : string) : ProcessEntry :=
  mkProcessEntry (pe_pid e) (pe_gen e) (pe_parent e) image
                 (pe_exited e) (pe_fds e).

(** Modelled from the spec: exited, with every handle force-closed
    (section 3, lifecycle). *)
Definition set_exited (e : ProcessEntry) : ProcessEntry :=
  mkProcessEntry (pe_pid e) (pe_gen e) (pe_parent e) (pe_image e) true ∅.

(** Modelled from the spec: [onExit] of section 4.3 and the lifecycle of
    section 3; the entry is marked exited, its handles are force-closed
    and it joins the eviction queue. *)
Definition onExit (t : ProcessTable) (pid : Z) : ProcessTable :=
  match live t pid with
  | None => t
  | Some (k, e) =>
      mkProcessTable (<[k := set_exited e]> (entries t)) (current t)
                     (exited_queue t ++ [k]) (overflows t)
  end.

(** Modelled from the spec: the table-size ceiling of sections 3 and 7;
    at the ceiling the oldest exited entry is evicted and the overflow
    counted. *)
Definition make_room (ceiling : nat) (t : ProcessTable) : ProcessTable :=
  if decide (size (entries t) < ceiling)%nat then t
  else match exited_queue t with
       | [] => mkProcessTable (entries t) (current t) [] (S (overflows t))
       | k :: q => mkProcessTable (delete k (entries t)) (current t) q
                                  (S (overflows t))
       end.

(** Modelled from the spec: a fork/exec genesis (sections 3 and 4.3); a
    stale entry still live under the pid is closed first. *)
Definition genesis (ceiling : nat) (t : ProcessTable) (pid : Z)
    (parent : option (Z * nat)) (image : string) : ProcessTable :=
  let t1 := make_room ceiling (onExit t pid) in
  let g := next_gen t pid in
  mkProcessTable
    (<[(pid, g) := mkProcessEntry pid g parent image false ∅]> (entries t1))
    (<[pid := g]> (current t1))
    (exited_queue t1) (overflows t1).

(** Modelled from the spec: [onFork(parent, child, ts)]; the child starts
    with the parent's image and a weak reference to the parent's current
    identity. *)
Definition onFork (ceiling : nat) (t : ProcessTable) (parent child : Z)
  : ProcessTable :=
  genesis ceiling t child
          ((λ g, (parent, g)) <$> current t !! parent)
          (default "" (pe_image <$> lookup t parent)).

(** Modelled from the spec: [onExec(pid, imagePath, argv, ts)] replaces
    the image on the current generation; an exec of a pid with no live
    entry is a genesis. *)
Definition onExec (ceiling : nat) (t : ProcessTable) (pid : Z)
    (image : string) : ProcessTable :=
  match live t pid with
  | Some (k, e) => put t k (set_image e image)
  | None => genesis ceiling t pid None image
  end.

(** Modelled from the spec: WRITE_SEEN adds to the accumulated write
    length of the handle (sections 3 and 4.4). *)
Definition add_written (n : N) (h : FileHandle) : FileHandle :=
  mkFileHandle (fh_fd h) (fh_path h) (fh_flags h) (fh_written h + n)
               (fh_degraded h).

(** Modelled from the spec: the mark of a join touched by a gap
    (section 4.4). *)
Definition degrade (h : FileHandle) : FileHandle :=
  mkFileHandle (fh_fd h) (fh_path h) (fh_flags h) (fh_written h) true.

(** Modelled from the spec: gap handling of section 4.4; every join in
    flight is marked degraded. *)
Definition on_gap (t : ProcessTable) : ProcessTable :=
  mkProcessTable ((λ e, set_fds e (degrade <$> pe_fds e)) <$> entries t)
                 (current t) (exited_queue t) (overflows t).

(** Modelled from the spec: the event of a terminal close (section 4.4);
    a close with no open seen, or one touched by a gap, is degraded and
    has no definite byte count. *)
Definition close_event (k : Z * nat) (fd : Z) (h : option FileHandle)
  : SecurityEvent :=
  match h with
  | Some h =>
      FileEvent k fd (Some (fh_path h))
                (if fh_degraded h then None else Some (fh_written h))
                (fh_degraded h)
  | None => FileEvent k fd None None true
  end.

(** Modelled from the spec: the CorrelationEngine of section 4.4, one
    decoded record at a time: the table after the record and the events
    assembled by it.  A record of a pid with no live entry assembles
    nothing (first property of section 8). *)
Definition correlate (ceiling : nat) (t : ProcessTable) (r : AuditRecord)
  : ProcessTable * list SecurityEvent :=
  match r with
  | RFork parent child => (onFork ceiling t parent child, [])
  | RExec pid image argv status =>
      if decide (status = 0)
      then let t' := onExec ceiling t pid image in
           (t', match live t' pid with
                | Some (k, _) => [ExecEvent k (Some image) (Some argv)]
                | None => []
                end)
      else (t, match live t pid with
               | Some (k, _) => [ExecFailedEvent k (Some image) status]
               | None => []
               end)
  | RExit pid => (onExit t pid, [])
  | ROpen pid fd path flags =>
      match live t pid with
      | Some (k, e) =>
          (put t k (set_fds e (<[fd := mkFileHandle fd path flags 0 false]>
                                 (pe_fds e))),
           [])
      | None => (t, [])
      end
  | RWrite pid fd len =>
      match live t pid with
      | Some (k, e) =>
          (put t k (set_fds e (alter (add_written len) fd (pe_fds e))), [])
      | None => (t, [])
      end
  | RClose pid fd =>
      match live t pid with
      | Some (k, e) =>
          (put t k (set_fds e (delete fd (pe_fds e))),
           [close_event k fd (pe_fds e !! fd)])
      | None => (t, [])
      end
  end.

(** Modelled from the spec: records are consumed strictly in frame order
    (section 4.4); the final table and all assembled events. *)
Fixpoint correlate_all (ceiling : nat) (t : ProcessTable)
    (rs : list AuditRecord) : ProcessTable * list SecurityEvent :=
  match rs with
  | [] => (t, [])
  | r :: rs' =>
      let '(t1, evs) := correlate ceiling t r in
      let '(t2, evs') := correlate_all ceiling t1 rs' in
      (t2, evs ++ evs')%list
  end.

(** Modelled from the spec: the PolicyEngine verdicts of section 6. *)
Inductive field : Type := FPath | FWritten | FImage | FArgv.
Inductive verdict : Type := Pass | Suppress | Redact (fields : list field).

(** Modelled from the spec: membership of a field in a redact verdict. *)
Definition field_eqb (f g : field) : bool :=
  match f, g with
  | FPath, FPath | FWritten, FWritten | FImage, FImage | FArgv, FArgv => true
  | _, _ => false
  end.

Definition has_field (f : field) (fs : list field) : bool :=
  existsb (field_eqb f) fs.

(** Modelled from the spec: redact strips the named fields (section
    4.4). *)
Definition strip {A} (f : field) (fs : list field) (x : option A)
  : option A := if has_field f fs then None else x.

Definition redact (fs : list field) (ev : SecurityEvent) : SecurityEvent :=
  match ev with
  | FileEvent proc fd path written degraded =>
      FileEvent proc fd (strip FPath fs path) (strip FWritten fs written)
                degraded
  | ExecEvent proc image argv =>
      ExecEvent proc (strip FImage fs image) (strip FArgv fs argv)
  | ExecFailedEvent proc image status =>
      ExecFailedEvent proc (strip FImage fs image) status
  end.

(** Modelled from the spec: policy consultation of section 4.4 and the
    PolicyError rule of section 7; [None] is what reaches no sink, and a
    policy that fails ([policy ev = None]) counts as pass. *)
Definition filter_event (policy : SecurityEvent → option verdict)
    (ev : SecurityEvent) : option SecurityEvent :=
  match policy ev with
  | None | Some Pass => Some ev
  | Some Suppress => None
  | Some (Redact fs) => Some (redact fs ev)
  end.

(** Modelled from the spec: one frame as the EventLoop of section 4.5
    sees it, a sequence number and the decoder's result ([None] stands
    for DecodeError::Malformed). *)
Record Frame : Type := mkFrame {
  fr_seq : N;
  fr_decoded : option AuditRecord;
}.

(** Modelled from the spec: the state the EventLoop drives: the table,
    the last sequence number seen, what the sink received, and the
    counters of section 7. *)
Record Pipe : Type := mkPipe {
  table : ProcessTable;
  last_seq : option N;
  sink : list SecurityEvent;
  decode_errors : nat;
  gaps : nat;
}.

(** Modelled from the spec: a fresh pipeline (section 8, determinism). *)
Definition fresh_pipe : Pipe := mkPipe empty_table None [] 0 0.

(** Modelled from the spec: a sequence discontinuity (sections 4.1 and
    7, GapDetected). *)
Definition is_gap (last : option N) (seq : N) : bool :=
  match last with
  | Some n => negb (seq =? n + 1)%N
  | None => false
  end.

(** Modelled from the spec: one turn of the EventLoop (sections 4.5 and
    4.4): gap marker, decode, correlate, policy, sink. *)
Definition step (ceiling : nat) (policy : SecurityEvent → option verdict)
    (p : Pipe) (f : Frame) : Pipe :=
  let gap := is_gap (last_seq p) (fr_seq f) in
  let t0 := if gap then on_gap (table p) else table p in
  let gaps' := if gap then S (gaps p) else gaps p in
  match fr_decoded f with
  | None => mkPipe t0 (Some (fr_seq f)) (sink p) (S (decode_errors p)) gaps'
  | Some r =>
      let '(t1, evs) := correlate ceiling t0 r in
      mkPipe t1 (Some (fr_seq f))
             (sink p ++ omap (filter_event policy) evs)%list
             (decode_errors p) gaps'
  end.

(** Modelled from the spec: the pull loop over the frames (section
    4.5). *)
Definition run (ceiling : nat) (policy : SecurityEvent → option verdict)
    (p : Pipe) (fs : list Frame) : Pipe :=
  foldl (step ceiling policy) p fs.

(** Modelled from the spec: the policy that passes every event. *)
Definition pass_all : SecurityEvent → option verdict := λ _, Some Pass.

(** Modelled from the spec: the fully-assembled events of a run, as the
    engine hands them to the policy (section 4.4). *)
Fixpoint assembled (ceiling : nat) (p : Pipe) (fs : list Frame)
  : list SecurityEvent :=
  match fs with
  | [] => []
  | f :: fs' =>
      let gap := is_gap (last_seq p) (fr_seq f) in
      let t0 := if gap then on_gap (table p) else table p in
      (match fr_decoded f with
       | None => []
       | Some r => (correlate ceiling t0 r).2
       end ++ assembled ceiling (step ceiling pass_all p f) fs')%list
  end.

(** Every entry sits under its own identity. *)
Definition keyed_by_identity (t : ProcessTable) : Prop :=
  ∀ pid g e, entries t !! (pid, g) = Some e → pe_pid e = pid ∧ pe_gen e = g.

(** Two pipelines that differ at most in what their sinks received. *)
Definition same_ground_truth (p q : Pipe) : Prop :=
  table p = table q ∧ last_seq p = last_seq q ∧
  decode_errors p = decode_errors q ∧ gaps p = gaps q.

(** The four records of a complete join on descriptor 3. *)
Definition join_records (pid : Z) (path : string) (flags : Z)
  : list AuditRecord :=
  [ROpen pid 3 path flags; RWrite pid 3 10; RWrite pid 3 5; RClose pid 3].

(** Pid 7 forked, exited and forked again. *)
Definition reuse_records (parent1 parent2 : Z) : list AuditRecord :=
  [RFork parent1 7; RExit 7; RFork parent2 7].

(** The join claim without any condition on the table: the four records
    assemble exactly one file event, with path [path] and accumulated
    write length 15. *)
Definition join_emits_one_event (ceiling : nat) (t : ProcessTable)
    (pid : Z) (path : string) (flags : Z) : Prop :=
  ∃ k degraded,
    (correlate_all ceiling t (join_records pid path flags)).2 =
    [FileEvent k 3 (Some path) (Some 15%N) degraded].

End Pipeline.
Import Pipeline.

(* ===================================================================== *)
(** ** Properties of the [getopt] scan *)
(* ===================================================================== *)

Section GetoptProperties.

(** An option declared with ':' never comes back without its argument. *)
Lemma scan_place_sets_optarg ostr place next r :
  r ∈ (Getopt.scan_place ostr place next).1 →
  Getopt.lookup_opt ostr r.1 = Getopt.WithArg →
  r.1 ≠ Getopt.BADCH →
  is_Some r.2.
Proof.
  revert r. induction place as [|c place IH]; intros r; simpl.
  { intros H. by apply elem_of_nil in H. }
  assert (Hcont : ∀ r0 : Getopt.ret,
    (r0.1 = Getopt.BADCH ∨ Getopt.lookup_opt ostr r0.1 = Getopt.Flag) →
    r ∈ (match place with
         | EmptyString => ([r0], Getopt.ElementDone)
         | String _ _ =>
             let '(rs, e) := Getopt.scan_place ostr place next in
             (r0 :: rs, e)
         end).1 →
    Getopt.lookup_opt ostr r.1 = Getopt.WithArg →
    r.1 ≠ Getopt.BADCH → is_Some r.2).
  { intros r0 Hr0 Hin Hw Hb.
    assert (r = r0 ∨ r ∈ (Getopt.scan_place ostr place next).1) as [->|Hr].
    { destruct place as [|c' place'].
      - left. by apply list_elem_of_singleton in Hin.
      - destruct (Getopt.scan_place ostr (String c' place') next) as [rs e].
        simpl in Hin. by apply elem_of_cons in Hin. }
    - destruct Hr0 as [Hr0|Hr0]; [done|congruence].
    - by apply IH. }
  destruct (Ascii.eqb c ":").
  { apply Hcont. by left. }
  destruct (Getopt.lookup_opt ostr c) eqn:E.
  - apply Hcont. by left.
  - apply Hcont. by right.
  - destruct place as [|c' place']; [destruct next as [a|]|]; simpl;
      intros Hin; apply list_elem_of_singleton in Hin as ->; simpl; eauto;
      done.
Qed.

Lemma scan_args_sets_optarg ostr n args r :
  (length args ≤ n)%nat →
  r ∈ (Getopt.scan_args ostr args).1 →
  Getopt.lookup_opt ostr r.1 = Getopt.WithArg →
  r.1 ≠ Getopt.BADCH →
  is_Some r.2.
Proof.
  revert args. induction n as [|n IH]; intros [|a rest] Hlen; simpl;
    try (intros H; by apply elem_of_nil in H); simpl in Hlen; [lia|].
  destruct a as [|c place]; simpl;
    [intros H; by apply elem_of_nil in H|].
  destruct (negb (Ascii.eqb c "-")); simpl;
    [intros H; by apply elem_of_nil in H|].
  destruct (String.eqb place ""); simpl;
    [intros H; by apply elem_of_nil in H|].
  destruct (String.eqb place "-"); simpl;
    [intros H; by apply elem_of_nil in H|].
  destruct rest as [|nx rest'].
  - apply scan_place_sets_optarg.
  - pose proof (scan_place_sets_optarg ostr place (Some nx) r) as Hp.
    destruct (Getopt.scan_place ostr place (Some nx)) as [rs e].
    simpl in Hp. destruct e.
    + pose proof (IH (nx :: rest') ltac:(simpl in *; lia)) as Hr.
      destruct (Getopt.scan_args ostr (nx :: rest')) as [rs' ops].
      simpl in *. intros Hin. apply elem_of_app in Hin as [Hin|Hin]; auto.
    + pose proof (IH rest' ltac:(simpl in *; lia)) as Hr.
      destruct (Getopt.scan_args ostr rest') as [rs' ops].
      simpl in *. intros Hin. apply elem_of_app in Hin as [Hin|Hin]; auto.
    + simpl. auto.
Qed.

(** In both passes of [main], [optarg] is set whenever the [case] reads
    it. *)
Lemma getopt_sets_optarg argv ch optarg :
  (ch, optarg) ∈ (Getopt.getopt_pass argv OPTSTRING).1 →
  match switch ch with
  | Case_o | Case_l | Case_f | Case_c => is_Some optarg
  | _ => True
  end.
Proof.
  intros Hin.
  pose proof (scan_args_sets_optarg OPTSTRING _ _ _ (Nat.le_refl _) Hin)
    as Hs.
  simpl in Hs. unfold switch.
  repeat match goal with
         | |- context [Ascii.eqb ch ?x] =>
             destruct (Ascii.eqb_spec ch x) as [->|?]
         end; auto; apply Hs; done.
Qed.

Example getopt_clustered_and_attached :
  Getopt.getopt_pass ["xnumon"; "-dc"; "/tmp/x"; "-okey=val"; "-1m"]
                     OPTSTRING =
  ([("d"%char, None); ("c"%char, Some "/tmp/x");
    ("o"%char, Some "key=val"); ("1"%char, None); ("m"%char, None)], []).
Proof. reflexivity. Qed.

Example getopt_stops_at_operand :
  Getopt.getopt_pass ["xnumon"; "-d"; "extra"; "-m"] OPTSTRING =
  ([("d"%char, None)], ["extra"; "-m"]).
Proof. reflexivity. Qed.

Example getopt_missing_argument :
  Getopt.getopt_pass ["xnumon"; "-d"; "-c"] OPTSTRING =
  ([("d"%char, None); ("?"%char, None)], []).
Proof. reflexivity. Qed.

(** What [getopt] returns is '?' or a letter of the option string. *)
Lemma scan_place_letters ostr place next r :
  r ∈ (Getopt.scan_place ostr place next).1 →
  r.1 = Getopt.BADCH ∨
  (r.1 ≠ ":"%char ∧ Getopt.lookup_opt ostr r.1 ≠ Getopt.NoSuchOpt).
Proof.
  revert r. induction place as [|c place IH]; intros r; simpl.
  { intros H. by apply elem_of_nil in H. }
  assert (Hcont : ∀ r0 : Getopt.ret,
    (r0.1 = Getopt.BADCH ∨
     (r0.1 ≠ ":"%char ∧ Getopt.lookup_opt ostr r0.1 ≠ Getopt.NoSuchOpt)) →
    r ∈ (match place with
         | EmptyString => ([r0], Getopt.ElementDone)
         | String _ _ =>
             let '(rs, e) := Getopt.scan_place ostr place next in
             (r0 :: rs, e)
         end).1 →
    r.1 = Getopt.BADCH ∨
    (r.1 ≠ ":"%char ∧ Getopt.lookup_opt ostr r.1 ≠ Getopt.NoSuchOpt)).
  { intros r0 Hr0 Hin.
    assert (r = r0 ∨ r ∈ (Getopt.scan_place ostr place next).1) as [->|Hr].
    { destruct place as [|c' place'].
      - left. by apply list_elem_of_singleton in Hin.
      - destruct (Getopt.scan_place ostr (String c' place') next) as [rs e].
        simpl in Hin. by apply elem_of_cons in Hin. }
    - done.
    - by apply IH. }
  destruct (Ascii.eqb_spec c ":") as [->|Hc].
  { apply Hcont. by left. }
  destruct (Getopt.lookup_opt ostr c) eqn:E.
  - apply Hcont. by left.
  - apply Hcont. right. simpl. split; [done|]. by rewrite E.
  - assert (Hok : c ≠ ":"%char ∧
                  Getopt.lookup_opt ostr c ≠ Getopt.NoSuchOpt)
      by (split; [done|by rewrite E]).
    destruct place as [|c' place']; [destruct next as [a|]|]; simpl;
      intros Hin; apply list_elem_of_singleton in Hin as ->; simpl; auto.
Qed.

Lemma scan_args_letters ostr n args r :
  (length args ≤ n)%nat →
  r ∈ (Getopt.scan_args ostr args).1 →
  r.1 = Getopt.BADCH ∨
  (r.1 ≠ ":"%char ∧ Getopt.lookup_opt ostr r.1 ≠ Getopt.NoSuchOpt).
Proof.
  revert args. induction n as [|n IH]; intros [|a rest] Hlen; simpl;
    try (intros H; by apply elem_of_nil in H); simpl in Hlen; [lia|].
  destruct a as [|c place]; simpl;
    [intros H; by apply elem_of_nil in H|].
  destruct (negb (Ascii.eqb c "-")); simpl;
    [intros H; by apply elem_of_nil in H|].
  destruct (String.eqb place ""); simpl;
    [intros H; by apply elem_of_nil in H|].
  destruct (String.eqb place "-"); simpl;
    [intros H; by apply elem_of_nil in H|].
  destruct rest as [|nx rest'].
  - apply scan_place_letters.
  - pose proof (scan_place_letters ostr place (Some nx) r) as Hp.
    destruct (Getopt.scan_place ostr place (Some nx)) as [rs e].
    simpl in Hp. destruct e.
    + pose proof (IH (nx :: rest') ltac:(simpl in *; lia)) as Hr.
      destruct (Getopt.scan_args ostr (nx :: rest')) as [rs' ops].
      simpl in *. intros Hin. apply elem_of_app in Hin as [Hin|Hin]; auto.
    + pose proof (IH rest' ltac:(simpl in *; lia)) as Hr.
      destruct (Getopt.scan_args ostr rest') as [rs' ops].
      simpl in *. intros Hin. apply elem_of_app in Hin as [Hin|Hin]; auto.
    + simpl. auto.
Qed.

(** X18: with this option string [getopt] only returns letters that have
    a [case] of their own, or '?': the [default] branch of either
    [switch] is never taken. *)
Theorem default_case_is_never_taken argv :
  Forall (λ o : Getopt.ret, switch o.1 ≠ Case_default)
         (Getopt.getopt_pass argv OPTSTRING).1.
Proof.
  apply Forall_forall. intros [ch optarg] Hin. simpl.
  destruct (scan_args_letters OPTSTRING _ _ _ (Nat.le_refl _) Hin)
    as [Hb|[Hc Hl]]; cbn [fst] in *; [by subst ch|].
  unfold switch.
  repeat match goal with
         | |- context [Ascii.eqb ch ?x] =>
             destruct (Ascii.eqb_spec ch x) as [->|?]
         end; try done.
  exfalso. apply Hl. unfold OPTSTRING. cbn [Getopt.lookup_opt].
  repeat match goal with
         | |- context [Ascii.eqb ?x ch] =>
             destruct (Ascii.eqb_spec x ch) as [<-|?]; [done|]
         end.
  reflexivity.
Qed.

End GetoptProperties.

(* ===================================================================== *)
(** ** Properties of [main] *)
(* ===================================================================== *)

Section MainProperties.
Context {R : Type} {platform : Platform R}.

Lemma quiet_ret {A} P (a : A) : quiet P (mret a : M R A).
Proof.
  intros s. split; [done|]. exists []. rewrite app_nil_r.
  split; [done|]. simpl. constructor.
Qed.

Lemma quiet_bind {A B} P (m : M R A) (k : A → M R B) :
  quiet P m → (∀ a, quiet P (k a)) → quiet P (m ≫= k).
Proof.
  intros Hm Hk s. unfold mbind, M_bind.
  destruct (Hm s) as (Hp & t & Ht & Hf).
  destruct (m s) as [[a| |c] s1]; simpl in *.
  - destruct (Hk a s1) as (Hp' & t' & Ht' & Hf').
    split; [congruence|]. exists (t ++ t')%list.
    rewrite Ht', Ht, app_assoc. split; [done|].
    destruct ((k a s1).1).
    + by apply Forall_app_2.
    + by apply Forall_app_2.
    + destruct Hf' as (u & -> & Hu). exists (t ++ u)%list.
      rewrite app_assoc. split; [done|]. by apply Forall_app_2.
  - eauto.
  - eauto.
Qed.

Lemma quiet_emit (P : event R → bool) (e : event R) :
  P e = true → quiet P (emit e).
Proof.
  intros He s. split; [done|]. exists [e]. split; [done|].
  simpl. constructor; [by rewrite He|constructor].
Qed.

Lemma quiet_exit {A} P c : quiet P (exit c : M R A).
Proof.
  intros s. split; [done|]. exists [EvExit c]. split; [done|].
  simpl. by exists [].
Qed.

Lemma quiet_goto {A} P : quiet P (goto_errout : M R A).
Proof.
  intros s. split; [done|]. exists []. rewrite app_nil_r.
  split; [done|]. simpl. constructor.
Qed.

Lemma quiet_silent {A} P (m : M R A) :
  (∀ s, pidfd (m s).2 = pidfd s ∧ trace (m s).2 = trace s ∧
        ∀ c, (m s).1 ≠ Exited c) →
  quiet P m.
Proof.
  intros H s. destruct (H s) as (Hp & Ht & Hc). split; [done|].
  exists []. rewrite app_nil_r. split; [done|].
  destruct ((m s).1); try constructor. by destruct (Hc code).
Qed.

Lemma quiet_for_each {A} P (body : A → M R unit) l :
  (∀ x, quiet P (body x)) → quiet P (for_each body l).
Proof.
  intros Hb. induction l as [|x l IH]; simpl.
  - apply quiet_ret.
  - apply quiet_bind; auto.
Qed.

Lemma quiet_with_cfg {A} P (k : config_t R → M R A) :
  (∀ c, quiet P (k c)) → quiet P (with_cfg k).
Proof.
  intros Hk s. unfold with_cfg. destruct (cfg s) as [c|].
  - apply Hk.
  - split; [done|]. exists []. rewrite app_nil_r.
    split; [done|]. simpl. constructor.
Qed.

Ltac quiet_step :=
  first [ apply quiet_ret | apply quiet_exit | apply quiet_goto
        | apply quiet_emit; reflexivity
        | apply quiet_bind; [|intros ?]
        | apply quiet_with_cfg; intros ?
        | apply quiet_silent; intros ?; split_and!; done ].

Lemma quiet_first_pass_case argv0 o :
  quiet is_first_pass_event (first_pass_case argv0 o).
Proof.
  destruct o as [ch optarg]. unfold first_pass_case, fprintf.
  destruct (switch ch); repeat quiet_step.
  destruct (strdup _); repeat quiet_step.
Qed.

Lemma quiet_call_config_str key value :
  quiet is_second_pass_event (call_config_str key value).
Proof. unfold call_config_str. repeat quiet_step. Qed.

Lemma quiet_second_pass_case o :
  quiet is_second_pass_event (second_pass_case o).
Proof.
  destruct o as [ch optarg]. unfold second_pass_case, fprintf.
  destruct (switch ch); try destruct (split_at_eq _) as [[??]|];
    repeat first [ apply quiet_call_config_str | quiet_step
                 | match goal with |- quiet _ (if ?b then _ else _) =>
                     destruct b end ].
Qed.

Lemma quiet_load_configuration : quiet is_load_event load_configuration.
Proof.
  unfold load_configuration, fprintf.
  repeat first [ quiet_step
               | match goal with
                 | |- quiet _ (match ?x with _ => _ end) => destruct x
                 end ].
Qed.

Lemma quiet_weaken {A} (P Q : event R → bool) (m : M R A) :
  (∀ e, P e = true → Q e = true) → quiet P m → quiet Q m.
Proof.
  intros HPQ Hm s. destruct (Hm s) as (Hp & t & Ht & Hf).
  split; [done|]. exists t. split; [done|].
  assert (HF : ∀ l, Forall P l → Forall Q l).
  { intros l Hl. eapply Forall_impl; [exact Hl|].
    intros e He. apply Is_true_true, HPQ. by apply Is_true_true. }
  destruct ((m s).1); auto.
  destruct Hf as (t' & -> & Ht'). eauto.
Qed.

(** What a quiet statement adds to the trace, the closing [exit] event
    included. *)
Lemma quiet_trace {A} (P Q : event R → bool) (m : M R A) s :
  quiet P m → (∀ e, P e = true → Q e = true) → (∀ c, Q (EvExit c) = true) →
  ∃ t, trace (m s).2 = (trace s ++ t)%list ∧ Forall (λ e, Q e = true) t.
Proof.
  intros Hm HPQ HQ. destruct (Hm s) as (_ & t & Ht & Hf).
  exists t. split; [done|].
  assert (HF : ∀ l, Forall P l → Forall (λ e, Q e = true) l).
  { intros l Hl. eapply Forall_impl; [exact Hl|].
    intros e He. by apply HPQ, Is_true_true. }
  destruct ((m s).1); auto.
  destruct Hf as (t' & -> & Ht').
  apply Forall_app_2; [auto|]. constructor; [apply HQ|constructor].
Qed.

Ltac by_cases_on_event :=
  let e := fresh "e" in intros e; destruct e; simpl; done.

Lemma quiet_configure argv : quiet is_configure_event (configure argv).
Proof.
  unfold configure, fprintf.
  repeat first
    [ apply quiet_for_each; intros ?
    | apply (quiet_weaken is_first_pass_event);
        [by_cases_on_event|apply quiet_first_pass_case]
    | apply (quiet_weaken is_second_pass_event);
        [by_cases_on_event|apply quiet_second_pass_case]
    | apply (quiet_weaken is_load_event);
        [by_cases_on_event|apply quiet_load_configuration]
    | quiet_step
    | match goal with
      | |- quiet _ (match ?x with _ => _ end) => destruct x
      end ].
Qed.

Lemma stays_settled_bind {A B} (m : M R A) (k : A → M R B) :
  stays_settled m → (∀ a, stays_settled (k a)) → stays_settled (m ≫= k).
Proof.
  intros Hm Hk s Hrv Hc. unfold mbind, M_bind.
  destruct (Hm s Hrv Hc) as [Hrv1 Hc1].
  destruct (m s) as [[a| |c] s1]; simpl in *; auto.
  by apply Hk.
Qed.

Lemma stays_settled_frame {A} (m : M R A) :
  (∀ s, rv (m s).2 = rv s ∧ cfg (m s).2 = cfg s) → stays_settled m.
Proof. intros H s Hrv Hc. destruct (H s) as [-> ->]. done. Qed.

Lemma stays_settled_with_cfg {A} (k : config_t R → M R A) :
  (∀ c, stays_settled (k c)) → stays_settled (with_cfg k).
Proof.
  intros Hk s Hrv Hc. unfold with_cfg. destruct (cfg s) as [c|] eqn:E.
  - apply Hk; [done|]. by rewrite E.
  - done.
Qed.

Lemma stays_settled_set_cfg c : stays_settled (set_cfg (Some c) : M R unit).
Proof. intros s Hrv _. simpl. eauto. Qed.

Lemma stays_settled_for_each {A} (body : A → M R unit) l :
  (∀ x, stays_settled (body x)) → stays_settled (for_each body l).
Proof.
  intros Hb. induction l as [|x l IH]; simpl.
  - by apply stays_settled_frame.
  - apply stays_settled_bind; auto.
Qed.

Ltac settled_step :=
  first [ apply stays_settled_set_cfg
        | apply stays_settled_frame; intros ?; split; reflexivity
        | apply stays_settled_bind; [|intros ?]
        | apply stays_settled_with_cfg; intros ?
        | match goal with
          | |- stays_settled (if ?b then _ else _) => destruct b
          | |- stays_settled (match ?x with _ => _ end) => destruct x
          end ].

Lemma stays_settled_second_pass_case o : stays_settled (second_pass_case o).
Proof.
  destruct o as [ch optarg].
  unfold second_pass_case, call_config_str, fprintf.
  destruct (switch ch); try destruct (split_at_eq _) as [[??]|];
    repeat settled_step.
Qed.

Lemma stays_settled_bootstrap : stays_settled bootstrap.
Proof. unfold bootstrap, fprintf. repeat settled_step. Qed.

Lemma for_each_cons {A} (body : A → M R unit) x l s :
  for_each body (x :: l) s =
  match body x s with
  | (Normal _, s') => for_each body l s'
  | (Errout, s') => (Errout, s')
  | (Exited c, s') => (Exited c, s')
  end.
Proof. reflexivity. Qed.

(** No statement of the first pass jumps to [errout]. *)
Lemma first_pass_never_errout argv0 l s :
  (for_each (first_pass_case argv0) l s).1 ≠ Errout.
Proof.
  revert s. induction l as [|[ch optarg] l IH]; intros s; [done|].
  rewrite for_each_cons.
  destruct (first_pass_case argv0 (ch, optarg) s) as [[[]| |c] s1] eqn:E;
    simpl; [apply IH| |done].
  revert E. unfold first_pass_case, fprintf, mbind, M_bind, emit, exit.
  destruct (switch ch); simpl; try done.
  destruct (strdup _); simpl; done.
Qed.

Lemma bind_run {A B} (m : M R A) (k : A → M R B) s :
  (m ≫= k) s =
  match m s with
  | (Normal a, s') => k a s'
  | (Errout, s') => (Errout, s')
  | (Exited c, s') => (Exited c, s')
  end.
Proof. reflexivity. Qed.

Lemma load_configuration_settles s :
  match (load_configuration s).1 with
  | Normal _ => rv (load_configuration s).2 = -1 ∧
                is_Some (cfg (load_configuration s).2)
  | Errout => rv (load_configuration s).2 = -1
  | Exited _ => True
  end.
Proof.
  unfold load_configuration, fprintf, mbind, M_bind, emit, set_rv, get,
    set_cfg, goto_errout. simpl.
  destruct (config_new (cfgpath s)), (cfgpath s); simpl; eauto.
Qed.

Lemma configure_settles argv s :
  match (configure argv s).1 with
  | Normal _ => rv (configure argv s).2 = -1 ∧
                is_Some (cfg (configure argv s).2)
  | Errout => rv (configure argv s).2 = -1
  | Exited _ => True
  end.
Proof.
  unfold configure. rewrite bind_run.
  pose proof (first_pass_never_errout (default "" (head argv))
                (Getopt.getopt_pass argv OPTSTRING).1 s) as Hne.
  destruct (for_each (first_pass_case _) _ s) as [[[]| |c] s1];
    simpl in *; [|done..].
  rewrite bind_run. pose proof (load_configuration_settles s1) as Hl.
  destruct (load_configuration s1) as [[[]| |c] s2]; simpl in *; [|done..].
  destruct Hl as [Hrv Hc].
  match goal with |- context [(?m s2)] =>
    assert (Hs : stays_settled m); [|set (rest := m) in *] end.
  { unfold fprintf.
    repeat first [ apply stays_settled_for_each; intros ?
                 | apply stays_settled_second_pass_case | settled_step ]. }
  destruct (Hs s2 Hrv Hc) as [Hrv' Hc'].
  destruct (rest s2) as [[[]| |c] s3]; simpl in *; auto.
Qed.

(** The state in which lines 77-192 leave [main]. *)
Lemma configure_spec argv :
  let r := configure argv initial_state in
  pidfd r.2 = -1 ∧
  match r.1 with
  | Exited c => ∃ t, trace r.2 = (t ++ [EvExit c])%list ∧
                     Forall is_configure_event t
  | Errout => Forall is_configure_event (trace r.2) ∧ rv r.2 = -1
  | Normal _ => Forall is_configure_event (trace r.2) ∧ rv r.2 = -1 ∧
                is_Some (cfg r.2)
  end.
Proof.
  intros r. subst r.
  destruct (quiet_configure argv initial_state) as (Hp & t & Ht & Hf).
  pose proof (configure_settles argv initial_state) as Hs.
  split; [done|]. simpl in Ht. rewrite Ht. clear Hp Ht.
  destruct ((configure argv initial_state).1); auto.
Qed.

Lemma main_unfold argv :
  main argv initial_state =
  match configure argv initial_state with
  | (Exited code, s) => (Exited code, s)
  | (Errout, s) => errout_block s
  | (Normal _, s) =>
      match (bootstrap;; run_event_loop) s with
      | (Exited code, s') => (Exited code, s')
      | (_, s') => errout_block s'
      end
  end.
Proof.
  unfold main, before_errout, startup. rewrite !bind_run.
  destruct (configure argv initial_state) as [[[]| |c] s1]; simpl; try done.
Qed.

Ltac run_tail :=
  unfold bootstrap, run_event_loop, errout_block, with_cfg, fprintf,
    mbind, M_bind, mret, M_ret, emit, exit, goto_errout, set_pidfd,
    set_rv, set_cfg, get in *;
  simpl in *.

Lemma count_of_app (p : event R → bool) t1 t2 :
  count_of p (t1 ++ t2)%list = (count_of p t1 + count_of p t2)%nat.
Proof. unfold count_of. by rewrite List.filter_app, length_app. Qed.

Lemma count_of_cons (p : event R → bool) e t :
  count_of p (e :: t) = ((if p e then 1 else 0) + count_of p t)%nat.
Proof. unfold count_of. simpl. by destruct (p e). Qed.

Lemma count_of_nil (p : event R → bool) : count_of p [] = 0%nat.
Proof. reflexivity. Qed.

Lemma count_of_none (p : event R → bool) t :
  Forall (λ e, p e = false) t → count_of p t = 0%nat.
Proof.
  unfold count_of. induction 1 as [|e t He _ IH]; simpl; [done|].
  by rewrite He.
Qed.

(** A configure event is none of the later ones. *)
Lemma count_of_configure (p : event R → bool) t :
  (∀ e, is_configure_event e → p e = false) →
  Forall is_configure_event t → count_of p t = 0%nat.
Proof.
  intros Hp Ht. apply count_of_none.
  eapply Forall_impl; [exact Ht|]. auto.
Qed.

Lemma trace_before_from (p : event R → bool) t :
  t = (trace_before p t ++ trace_from p t)%list.
Proof.
  induction t as [|e t IH]; simpl; [done|].
  destruct (p e); simpl; congruence.
Qed.

Lemma trace_from_app (p : event R → bool) t1 t2 :
  count_of p t1 = 0%nat → trace_from p (t1 ++ t2)%list = trace_from p t2.
Proof.
  unfold count_of. induction t1 as [|e t1 IH]; simpl; [done|].
  destruct (p e); simpl; [done|auto].
Qed.

Lemma trace_before_app (p : event R → bool) t1 t2 :
  count_of p t1 = 0%nat →
  trace_before p (t1 ++ t2)%list = (t1 ++ trace_before p t2)%list.
Proof.
  unfold count_of. induction t1 as [|e t1 IH]; simpl; [done|].
  destruct (p e); simpl; [done|]. intros H. by rewrite IH.
Qed.

Ltac tail_cases :=
  simpl in *; repeat (case_bool_decide; simpl in *; try done; try lia).

(** Case analysis over the paths of [main]: the state after lines 77-192
    by [configure_spec], the straight-line rest by evaluation. *)
Ltac main_paths argv :=
  unfold run_trace, exit_status; rewrite main_unfold;
  let Hp := fresh "Hp" in
  let Hc := fresh "Hc" in
  let Ht := fresh "Ht" in
  let t := fresh "t" in
  let c := fresh "c" in
  pose proof (configure_spec argv) as [Hp Hc]; simpl in Hp, Hc;
  destruct (configure argv initial_state)
    as [[[]| |?code] [?cp ?cf ?pf ?r ?tr]];
  simpl in Hp, Hc |- *;
  [ destruct Hc as (Ht & -> & [c ->]); subst; rewrite bind_run
  | destruct Hc as (Ht & ->); subst
  | destruct Hc as (t & -> & Ht) ].

Ltac count_events Ht :=
  rewrite ?count_of_app,
    ?(count_of_configure is_evtloop_run _ ltac:(by_cases_on_event) Ht),
    ?(count_of_configure is_exit _ ltac:(by_cases_on_event) Ht),
    ?(count_of_configure is_getuid _ ltac:(by_cases_on_event) Ht),
    ?(count_of_configure is_task_sched _ ltac:(by_cases_on_event) Ht),
    ?(count_of_configure is_diskio _ ltac:(by_cases_on_event) Ht),
    ?(count_of_configure is_limit_nofile _ ltac:(by_cases_on_event) Ht),
    ?(count_of_configure is_pidf_open _ ltac:(by_cases_on_event) Ht),
    ?(count_of_configure is_pidf_close _ ltac:(by_cases_on_event) Ht),
    ?(count_of_configure is_bootstrap_effect _ ltac:(by_cases_on_event) Ht),
    ?(count_of_configure is_config_free _ ltac:(by_cases_on_event) Ht),
    ?(count_of_configure (is_pidf_close_of _ _) _
        ltac:(by_cases_on_event) Ht),
    ?count_of_cons, ?count_of_nil;
  simpl.

(** C1: once every startup step has succeeded, [main] calls [evtloop_run]
    exactly once, on the configuration the startup left, and then exits;
    the exit status is EXIT_FAILURE when [evtloop_run] returned -1 and
    EXIT_SUCCESS otherwise. *)
Theorem main_exit_status_follows_event_loop argv :
  (startup argv initial_state).1 = Normal () →
  ∃ c pre,
    cfg (startup argv initial_state).2 = Some c ∧
    run_trace argv =
      (pre ++ [EvExit (if bool_decide (evtloop_run c = -1)
                       then EXIT_FAILURE else EXIT_SUCCESS)])%list ∧
    EvEvtloopRun c ∈ pre ∧
    count_of is_evtloop_run pre = 1%nat ∧
    count_of is_exit pre = 0%nat ∧
    exit_status argv =
      Some (if bool_decide (evtloop_run c = -1)
            then EXIT_FAILURE else EXIT_SUCCESS).
Proof.
  unfold startup. rewrite bind_run. main_paths argv; [|done..].
  run_tail. tail_cases; intros _; exists c; tail_cases; eexists;
    (split; [reflexivity|]); (split; [reflexivity|]);
    (split; [set_solver|]); count_events Ht; done.
Qed.

(** Every path of [main] ends in [exit]. *)
Lemma main_exits argv : ∃ code, exit_status argv = Some code.
Proof.
  main_paths argv.
  - run_tail. tail_cases; eauto.
  - run_tail. destruct cf; tail_cases; eauto.
  - eauto.
Qed.

Ltac split_trace Ht :=
  rewrite <- ?List.app_assoc; simpl;
  rewrite ?(trace_from_app is_evtloop_run)
    by (apply count_of_configure; [by_cases_on_event|exact Ht]);
  rewrite ?(trace_before_app is_evtloop_run)
    by (apply count_of_configure; [by_cases_on_event|exact Ht]);
  simpl.

(** C5, as amended: each global bootstrap side effect (task scheduler
    priority, disk-IO policy, descriptor limit, pidfile lock) is performed
    at most once per run and exactly once in a run that enters
    [evtloop_run]; none is performed from the entry into the event loop
    on. *)
Theorem bootstrap_effects_once_and_before_event_loop argv :
  let t := run_trace argv in
  count_of is_bootstrap_effect (trace_from is_evtloop_run t) = 0%nat ∧
  (count_of is_evtloop_run t ≤ count_of is_task_sched t ≤ 1)%nat ∧
  (count_of is_evtloop_run t ≤ count_of is_diskio t ≤ 1)%nat ∧
  (count_of is_evtloop_run t ≤ count_of is_limit_nofile t ≤ 1)%nat ∧
  (count_of is_evtloop_run t ≤ count_of is_pidf_open t ≤ 1)%nat.
Proof.
  simpl. main_paths argv.
  - run_tail. tail_cases; split_trace Ht; count_events Ht;
      split_and!; auto with lia.
  - run_tail. destruct cf; tail_cases; split_trace Ht; count_events Ht;
      split_and!; auto with lia.
  - split_trace Ht; count_events Ht; split_and!; auto with lia.
Qed.

(** C6: when [sys_pidf_open] returns -1, a run that gets as far as
    opening the pidfile reports the failure, never calls [evtloop_run]
    and exits with EXIT_FAILURE. *)
Theorem pidfile_open_failure_is_fatal argv :
  sys_pidf_open XNUMON_PIDFILE = -1 →
  (0 < count_of is_pidf_open (run_trace argv))%nat →
  exit_status argv = Some EXIT_FAILURE ∧
  count_of is_evtloop_run (run_trace argv) = 0%nat ∧
  EvFprintf Stderr "Failed to open pidfile%s\n"
    [AStr (if bool_decide (errno_after_pidf_open = EWOULDBLOCK)
           then " - already running?" else "")] ∈ run_trace argv.
Proof.
  intros Hopen. main_paths argv.
  - run_tail. tail_cases; count_events Ht; intros ?;
      split_and!; try done; try lia; set_solver.
  - run_tail. destruct cf; tail_cases; count_events Ht; lia.
  - count_events Ht; lia.
Qed.

(** C8: when [getuid] returns non-zero and [setuid(0)] fails, a run that
    gets as far as the privilege check prints the error and exits with
    EXIT_FAILURE, without any scheduler, disk-IO, descriptor-limit or
    pidfile call and without calling [evtloop_run]. *)
Theorem without_root_nothing_is_started argv :
  getuid ≠ 0 →
  setuid 0 = -1 →
  (0 < count_of is_getuid (run_trace argv))%nat →
  exit_status argv = Some EXIT_FAILURE ∧
  EvFprintf Stderr "Must be run with root privileges\n" [] ∈ run_trace argv ∧
  count_of is_bootstrap_effect (run_trace argv) = 0%nat ∧
  count_of is_pidf_close (run_trace argv) = 0%nat ∧
  count_of is_evtloop_run (run_trace argv) = 0%nat.
Proof.
  intros Huid Hset. main_paths argv.
  - run_tail. tail_cases; count_events Ht; intros ?;
      split_and!; try done; try lia; set_solver.
  - run_tail. destruct cf; tail_cases; count_events Ht; lia.
  - count_events Ht; lia.
Qed.

(** C9: once [sys_pidf_open] has returned a descriptor other than -1,
    the run ends in [exit] and, before it, calls [sys_pidf_close] exactly
    once, with that descriptor and XNUMON_PIDFILE. *)
Theorem pidfile_closed_once_before_exit argv :
  sys_pidf_open XNUMON_PIDFILE ≠ -1 →
  (0 < count_of is_pidf_open (run_trace argv))%nat →
  ∃ pre code,
    run_trace argv = (pre ++ [EvExit code])%list ∧
    exit_status argv = Some code ∧
    count_of is_exit pre = 0%nat ∧
    count_of is_pidf_close pre = 1%nat ∧
    count_of (is_pidf_close_of (sys_pidf_open XNUMON_PIDFILE) XNUMON_PIDFILE)
             pre = 1%nat.
Proof.
  intros Hopen. main_paths argv.
  - run_tail. tail_cases; count_events Ht; (intros ?; try lia); eexists _, _;
      (split; [reflexivity|]); count_events Ht;
      rewrite ?bool_decide_true by done; simpl; split_and!; done.
  - run_tail. destruct cf; tail_cases; count_events Ht; lia.
  - count_events Ht; lia.
Qed.

(** The first pass does nothing on an override option, the second pass
    nothing on any other. *)
Lemma first_pass_case_override argv0 o s :
  is_override o = true → first_pass_case argv0 o s = (Normal (), s).
Proof.
  destruct o as [ch optarg]. unfold is_override, first_pass_case. simpl.
  by destruct (switch ch).
Qed.

Lemma second_pass_case_other o s :
  is_override o = false → second_pass_case o s = (Normal (), s).
Proof.
  destruct o as [ch optarg]. unfold is_override, second_pass_case. simpl.
  by destruct (switch ch).
Qed.

Lemma first_pass_skips_overrides argv0 l s :
  for_each (first_pass_case argv0) l s =
  for_each (first_pass_case argv0)
           (List.filter (λ o, negb (is_override o)) l) s.
Proof.
  revert s. induction l as [|o l IH]; intros s; [done|].
  cbn [List.filter]. destruct (is_override o) eqn:E; cbn [negb].
  - by rewrite for_each_cons, first_pass_case_override.
  - rewrite !for_each_cons.
    by destruct (first_pass_case argv0 o s) as [[[]| |c] s1].
Qed.

Lemma second_pass_skips_others l s :
  for_each second_pass_case l s =
  for_each second_pass_case (List.filter is_override l) s.
Proof.
  revert s. induction l as [|o l IH]; intros s; [done|].
  cbn [List.filter]. destruct (is_override o) eqn:E.
  - rewrite !for_each_cons.
    by destruct (second_pass_case o s) as [[[]| |c] s1].
  - by rewrite for_each_cons, second_pass_case_other.
Qed.

Lemma configure_depends_on_passes argv1 argv2 s :
  head argv1 = head argv2 →
  List.filter is_override (Getopt.getopt_pass argv1 OPTSTRING).1 =
    List.filter is_override (Getopt.getopt_pass argv2 OPTSTRING).1 →
  List.filter (λ o, negb (is_override o))
              (Getopt.getopt_pass argv1 OPTSTRING).1 =
    List.filter (λ o, negb (is_override o))
                (Getopt.getopt_pass argv2 OPTSTRING).1 →
  operands_left argv1 = operands_left argv2 →
  configure argv1 s = configure argv2 s.
Proof.
  intros H0 Ho Hf Hr. unfold configure. rewrite H0.
  rewrite !bind_run.
  rewrite (first_pass_skips_overrides _ (Getopt.getopt_pass argv1 _).1), Hf,
    <- first_pass_skips_overrides.
  destruct (for_each (first_pass_case _) _ s) as [[[]| |c] s1]; [|done..].
  rewrite !bind_run.
  destruct (load_configuration s1) as [[[]| |c] s2]; [|done..].
  rewrite !bind_run.
  rewrite (second_pass_skips_others (Getopt.getopt_pass argv1 _).1), Ho,
    <- second_pass_skips_others.
  destruct (for_each second_pass_case _ s2) as [[[]| |c] s3]; [|done..].
  rewrite !bind_run.
  destruct (fprintf _ _ _ s3) as [[[]| |c] s4]; [|done..].
  by rewrite Hr.
Qed.

Lemma trace_before_count_le (q p : event R → bool) t :
  (count_of q (trace_before p t) ≤ count_of q t)%nat.
Proof.
  induction t as [|e t IH]; simpl; [done|].
  destruct (p e); rewrite ?count_of_cons, ?count_of_nil; lia.
Qed.

Lemma trace_before_app_le (q p : event R → bool) t1 t2 :
  (count_of q (trace_before p (t1 ++ t2)) ≤
   count_of q (trace_before p t1) + count_of q t2)%nat.
Proof.
  induction t1 as [|e t1 IH]; simpl.
  - change (count_of q []) with 0%nat. apply trace_before_count_le.
  - destruct (p e); rewrite ?count_of_cons; [|lia].
    change (count_of q []) with 0%nat. lia.
Qed.

Lemma not_config_write_counts t :
  Forall (λ e : event R, is_not_config_write e = true) t →
  count_of is_config_override t = 0%nat ∧ count_of is_config_new t = 0%nat.
Proof.
  intros Ht. split; apply count_of_none;
    (eapply Forall_impl; [exact Ht|]); intros e; by destruct e.
Qed.

(** In lines 77-192 no override is applied before [config_new] has been
    called. *)
Lemma configure_loads_before_overrides argv :
  count_of is_config_override
    (trace_before is_config_new (trace (configure argv initial_state).2)) =
  0%nat.
Proof.
  unfold configure. rewrite bind_run.
  set (first := for_each (first_pass_case _) _).
  destruct (quiet_trace is_first_pass_event is_not_config_write first
              initial_state) as (t1 & Ht1 & HF1).
  { apply quiet_for_each. intros ?. apply quiet_first_pass_case. }
  { by_cases_on_event. }
  { done. }
  apply not_config_write_counts in HF1 as [Hov Hcn]. simpl in Ht1.
  destruct (first initial_state) as [[[]| |c] s1]; simpl in *.
  - match goal with |- context [load_configuration ≫= ?k] =>
      set (rest := k) end.
    assert (Hrest : ∀ u s, ∃ t3, trace (rest u s).2 = (trace s ++ t3)%list).
    { intros u s. destruct (quiet_trace is_second_pass_event any_event
                              (rest u) s) as (t3 & Ht3 & _); [|done|done|eauto].
      subst rest. unfold fprintf. simpl.
      repeat first
        [ apply quiet_for_each; intros ?
        | apply quiet_second_pass_case | quiet_step
        | match goal with
          | |- quiet _ (match ?x with _ => _ end) => destruct x
          end ]. }
    clearbody rest.
    unfold load_configuration, fprintf, mbind, M_bind, emit, set_rv, get,
      set_cfg, goto_errout. simpl.
    destruct (config_new (cfgpath s1)), (cfgpath s1); simpl;
      try (match goal with |- context [rest ?u ?s] =>
             destruct (Hrest u s) as (t3 & ->) end);
      simpl; rewrite Ht1, <- ?List.app_assoc; simpl;
      rewrite (trace_before_app is_config_new) by done; simpl;
      rewrite count_of_app, Hov, ?count_of_cons, ?count_of_nil; done.
  - subst. apply Nat.le_0_r. rewrite <- Hov. apply trace_before_count_le.
  - subst. apply Nat.le_0_r. rewrite <- Hov. apply trace_before_count_le.
Qed.


(* --------------------------------------------------------------------- *)
(** *** The first pass and the configuration load, step by step *)
(* --------------------------------------------------------------------- *)

Lemma first_pass_stop_cons o l :
  first_pass_stop (o :: l) =
  if stops_first_pass o then Some (switch o.1) else first_pass_stop l.
Proof. unfold first_pass_stop. simpl. by destruct (stops_first_pass o). Qed.

Lemma cfgpath_args_cons o l :
  cfgpath_args (o :: l) =
  if is_cfgpath_option o then arg_of o.2 :: cfgpath_args l
  else cfgpath_args l.
Proof. unfold cfgpath_args. simpl. by destruct (is_cfgpath_option o). Qed.

(** The whole first pass: it either runs through, having called [strdup]
    for each -c and kept the last copy, or exits at the first stopping
    option. *)
Lemma first_pass_run argv0 l s :
  match first_pass_stop l with
  | None =>
      for_each (first_pass_case argv0) l s =
      (Normal (),
       mkState (match last (cfgpath_args l) with
                | Some a => strdup a
                | None => cfgpath s
                end)
               (cfg s) (pidfd s) (rv s)
               (trace s ++ List.map EvStrdup (cfgpath_args l))%list)
  | Some k =>
      ∃ t cp, Forall (λ e, is_strdup e = true) t ∧
           for_each (first_pass_case argv0) l s =
           (Exited (first_pass_exit (R:=R) argv0 k).2,
            mkState cp (cfg s) (pidfd s) (rv s)
                    (trace s ++ t ++ (first_pass_exit (R:=R) argv0 k).1 ++
                     [EvExit (first_pass_exit (R:=R) argv0 k).2])%list)
  end.
Proof.
  revert s. induction l as [|[ch optarg] l IH]; intros s.
  { destruct s. simpl. by rewrite app_nil_r. }
  rewrite first_pass_stop_cons, cfgpath_args_cons, for_each_cons.
  set (rest := for_each (first_pass_case argv0) l) in *.
  unfold stops_first_pass, is_cfgpath_option, first_pass_case. simpl.
  destruct (switch ch) eqn:E; simpl;
    try (specialize (IH s); destruct (first_pass_stop l); exact IH);
    try (exists [], (cfgpath s); split; [constructor|]; simpl;
         rewrite <- ?List.app_assoc; reflexivity).
  destruct (strdup (arg_of optarg)) as [p|] eqn:Hp; simpl.
  - match goal with |- context [rest ?s1] => specialize (IH s1) end.
    simpl in IH.
    destruct (first_pass_stop l) as [k|].
    + destruct IH as (t & cp & Ht & ->). exists (EvStrdup (arg_of optarg) :: t), cp.
      split; [by constructor|]. simpl. by rewrite <- List.app_assoc.
    + rewrite IH. simpl. rewrite <- List.app_assoc. simpl.
      rewrite last_cons. by destruct (last (cfgpath_args l)); rewrite ?Hp.
  - exists [EvStrdup (arg_of optarg)], None. split; [by repeat constructor|].
    simpl. by rewrite <- !List.app_assoc.
Qed.

Lemma load_configuration_run s :
  load_configuration s =
  (match config_new (cfgpath s) with
   | Some _ => Normal ()
   | None => Errout
   end,
   mkState (cfgpath s) (config_new (cfgpath s)) (pidfd s) (-1)
           (trace s ++ load_events (cfgpath s))%list).
Proof.
  unfold load_configuration, load_events, fprintf, mbind, M_bind, emit,
    set_rv, get, set_cfg, goto_errout. simpl.
  destruct (config_new (cfgpath s)), (cfgpath s); simpl;
    by rewrite <- !List.app_assoc.
Qed.

Lemma configure_normal_operands argv s :
  (configure argv s).1 = Normal () → operands_left argv = false.
Proof.
  unfold configure. rewrite bind_run.
  destruct (for_each (first_pass_case _) _ s) as [[[]| |c] s1]; [|done..].
  rewrite bind_run.
  destruct (load_configuration s1) as [[[]| |c] s2]; [|done..].
  rewrite bind_run.
  destruct (for_each second_pass_case _ s2) as [[[]| |c] s3]; [|done..].
  rewrite bind_run.
  destruct (fprintf _ _ _ s3) as [[[]| |c] s4]; [|done..].
  by destruct (operands_left argv).
Qed.

(** No statement of the second pass calls [exit]. *)
Lemma second_pass_never_exits l s code :
  (for_each second_pass_case l s).1 ≠ Exited code.
Proof.
  revert s. induction l as [|[ch optarg] l IH]; intros s; [done|].
  rewrite for_each_cons.
  destruct (second_pass_case (ch, optarg) s) as [[[]| |c] s1] eqn:E;
    simpl; [apply IH|done|].
  revert E.
  unfold second_pass_case, call_config_str, with_cfg, fprintf, mbind,
    M_bind, emit, goto_errout, set_cfg.
  destruct (switch ch); simpl; try done;
    try destruct (split_at_eq _) as [[??]|]; simpl; try done;
    destruct (cfg s); simpl; try done;
    case_bool_decide; simpl; done.
Qed.

(** A run whose first pass stops: nothing but the [strdup] calls, the
    output of the stopping [case] and [exit]. *)
Lemma configure_stops argv k :
  first_pass_stop (Getopt.getopt_pass argv OPTSTRING).1 = Some k →
  ∃ t cp,
    Forall (λ e, is_strdup e = true) t ∧
    configure argv initial_state =
    (Exited (first_pass_exit (R:=R) (default "" (head argv)) k).2,
     mkState cp None (-1) 0
       (t ++ (first_pass_exit (default "" (head argv)) k).1 ++
        [EvExit (first_pass_exit (R:=R) (default "" (head argv)) k).2])%list).
Proof.
  intros Hk. unfold configure. rewrite bind_run.
  pose proof (first_pass_run (default "" (head argv))
                (Getopt.getopt_pass argv OPTSTRING).1 initial_state) as H.
  rewrite Hk in H. destruct H as (t & cp & Ht & ->). eauto.
Qed.

(** A run whose first pass runs through: the [strdup] calls, the load of
    the last -c path, then what the second pass and lines 184-189 add. *)
Lemma configure_runs argv :
  first_pass_stop (Getopt.getopt_pass argv OPTSTRING).1 = None →
  ∃ t3,
    Forall (λ e, is_second_pass_event e || is_exit e = true) t3 ∧
    trace (configure argv initial_state).2 =
      (List.map EvStrdup (cfgpath_args (Getopt.getopt_pass argv OPTSTRING).1)
       ++ load_events
            (chosen_cfgpath (Getopt.getopt_pass argv OPTSTRING).1) ++
       t3)%list ∧
    (∀ code, (configure argv initial_state).1 ≠ Exited code) ∧
    (config_new (chosen_cfgpath (Getopt.getopt_pass argv OPTSTRING).1)
       = None →
     t3 = [] ∧ (configure argv initial_state).1 = Errout ∧
     cfg (configure argv initial_state).2 = None) ∧
    (is_Some (config_new
                (chosen_cfgpath (Getopt.getopt_pass argv OPTSTRING).1)) →
     is_Some (cfg (configure argv initial_state).2)).
Proof.
  intros Hk. unfold configure. rewrite bind_run.
  pose proof (first_pass_run (default "" (head argv))
                (Getopt.getopt_pass argv OPTSTRING).1 initial_state) as H.
  rewrite Hk in H. rewrite H. clear H. simpl.
  set (t1 := List.map EvStrdup _).
  assert (Hcp : match last (cfgpath_args (Getopt.getopt_pass argv OPTSTRING).1)
                with Some a => strdup a | None => None end =
                chosen_cfgpath (Getopt.getopt_pass argv OPTSTRING).1).
  { unfold chosen_cfgpath. by destruct (last _). }
  rewrite Hcp. set (cp := chosen_cfgpath _).
  match goal with |- context [load_configuration ≫= ?k] =>
    set (rest := k) end.
  rewrite bind_run, load_configuration_run. simpl.
  destruct (config_new cp) as [c|] eqn:Hc.
  - assert (Hq : quiet is_second_pass_event (rest ())).
    { subst rest. unfold fprintf. simpl.
      repeat first
        [ apply quiet_for_each; intros ?
        | apply quiet_second_pass_case | quiet_step
        | match goal with
          | |- quiet _ (match ?x with _ => _ end) => destruct x
          end ]. }
    assert (Hs : stays_settled (rest ())).
    { subst rest. unfold fprintf. simpl.
      repeat first [ apply stays_settled_for_each; intros ?
                   | apply stays_settled_second_pass_case | settled_step ]. }
    match goal with |- context [rest () ?s2] =>
      destruct (quiet_trace is_second_pass_event
                  (λ e, is_second_pass_event e || is_exit e) (rest ()) s2 Hq)
        as (t3 & Ht3 & HF3);
      [by intros e ->|done|];
      destruct (Hs s2 eq_refl ltac:(by eexists)) as [_ Hcfg];
      assert (Hne : ∀ code, (rest () s2).1 ≠ Exited code);
      [|destruct (rest () s2) as [fl s3] eqn:Hrest]
    end.
    { intros code. subst rest. simpl. rewrite bind_run.
      match goal with |- context [for_each second_pass_case ?l ?s2] =>
        pose proof (second_pass_never_exits l s2) as Hx;
        destruct (for_each second_pass_case l s2) as [[[]| |c'] s3]
      end; simpl in *; [|done|by destruct (Hx c')].
      unfold fprintf, emit, mbind, M_bind. simpl.
      by destruct (operands_left argv). }
    simpl in *. exists t3. rewrite Ht3, <- List.app_assoc.
    split_and!; try done.
    by unfold load_events; rewrite Hc.
  - exists []. rewrite app_nil_r. split_and!; try done.
    simpl. unfold load_events. by rewrite Hc.
Qed.

Lemma main_stops argv k :
  first_pass_stop (Getopt.getopt_pass argv OPTSTRING).1 = Some k →
  ∃ t, Forall (λ e, is_strdup e = true) t ∧
       run_trace argv =
         (t ++ (first_pass_exit (default "" (head argv)) k).1 ++
          [EvExit (first_pass_exit (R:=R) (default "" (head argv)) k).2])%list
       ∧ exit_status argv =
           Some (first_pass_exit (R:=R) (default "" (head argv)) k).2.
Proof.
  intros Hk. destruct (configure_stops argv k Hk) as (t & cp & Ht & Hcfg).
  unfold run_trace, exit_status. rewrite main_unfold, Hcfg. simpl. eauto.
Qed.

(* --------------------------------------------------------------------- *)
(** *** Further properties of [main] *)
(* --------------------------------------------------------------------- *)



(** X3: when [getopt] reports an error ('?') before any other stopping
    option, [main] itself prints nothing and exits with EXIT_FAILURE. *)
Theorem getopt_error_exits_silently argv :
  first_pass_stop (Getopt.getopt_pass argv OPTSTRING).1 = Some Case_qmark →
  exit_status argv = Some EXIT_FAILURE ∧
  ∃ t, Forall (λ e, is_strdup e = true) t ∧
       run_trace argv = (t ++ [EvExit EXIT_FAILURE])%list.
Proof.
  intros Hk. destruct (main_stops argv _ Hk) as (t & Ht & Htr & Hex).
  split; [done|]. by exists t.
Qed.

(** X4: when [strdup] of a -c argument returns NULL before any other
    stopping option, the run reports the lack of memory and exits with
    EXIT_FAILURE. *)
Theorem strdup_failure_is_fatal argv :
  first_pass_stop (Getopt.getopt_pass argv OPTSTRING).1 = Some Case_c →
  exit_status argv = Some EXIT_FAILURE ∧
  ∃ t, Forall (λ e, is_strdup e = true) t ∧
       run_trace argv =
         (t ++ [EvFprintf Stderr "Out of memory!\n" [];
                EvExit EXIT_FAILURE])%list.
Proof.
  intros Hk. destruct (main_stops argv _ Hk) as (t & Ht & Htr & Hex).
  split; [done|]. by exists t.
Qed.

Lemma count_of_forall (P q : event R → bool) t :
  Forall (λ e, P e = true) t → (∀ e, P e = true → q e = false) →
  count_of q t = 0%nat.
Proof.
  intros Ht HPq. apply count_of_none.
  eapply Forall_impl; [exact Ht|]. auto.
Qed.

Lemma count_of_strdups (q : event R → bool) l :
  (∀ a, q (EvStrdup a) = false) → count_of q (List.map EvStrdup l) = 0%nat.
Proof.
  intros Hq. induction l as [|a l IH]; simpl; [done|].
  by rewrite count_of_cons, Hq, IH.
Qed.

Lemma trace_before_app_some (p : event R → bool) t1 t2 :
  (0 < count_of p t1)%nat →
  trace_before p (t1 ++ t2)%list = trace_before p t1.
Proof.
  induction t1 as [|e t1 IH]; simpl.
  - unfold count_of. simpl. lia.
  - rewrite count_of_cons. destruct (p e); [done|]. simpl. intros H.
    by rewrite IH.
Qed.

(** A run that stops in the first pass consists of first-pass events and
    the closing [exit]. *)
Lemma count_of_stopped_run (q : event R → bool) t argv0 k code :
  Forall (λ e, is_strdup e = true) t →
  (∀ e, is_first_pass_event e = true → q e = false) →
  q (EvExit code) = false →
  count_of q (t ++ (first_pass_exit argv0 k).1 ++ [EvExit code])%list
    = 0%nat.
Proof.
  intros Ht Hq Hx.
  rewrite !count_of_app, count_of_cons, Hx, count_of_nil.
  rewrite (count_of_forall is_strdup q t Ht)
    by (intros []; try done; intros _; by apply Hq).
  destruct k; simpl; rewrite ?count_of_cons, ?Hq by done; done.
Qed.

Ltac count_more Ht :=
  rewrite ?count_of_app,
    ?(count_of_configure is_setuid _ ltac:(by_cases_on_event) Ht),
    ?(count_of_configure is_debug_fini _ ltac:(by_cases_on_event) Ht),
    ?count_of_cons, ?count_of_nil;
  simpl.

(** X5: a command line with an operand left after the options never gets
    as far as the privilege check: once the first pass has run through,
    the run exits with EXIT_FAILURE without calling [getuid], any
    bootstrap step or [evtloop_run]. *)
Theorem operands_are_rejected argv :
  operands_left argv = true →
  first_pass_stop (Getopt.getopt_pass argv OPTSTRING).1 = None →
  exit_status argv = Some EXIT_FAILURE ∧
  count_of is_getuid (run_trace argv) = 0%nat ∧
  count_of is_bootstrap_effect (run_trace argv) = 0%nat ∧
  count_of is_evtloop_run (run_trace argv) = 0%nat.
Proof.
  intros Hop Hk.
  pose proof (configure_normal_operands argv initial_state) as Hn.
  destruct (configure_runs argv Hk) as (t3 & _ & _ & Hnx & _).
  main_paths argv.
  - simpl in Hn. rewrite Hn in Hop; done.
  - run_tail. destruct cf; tail_cases; count_events Ht; done.
  - by destruct (Hnx code).
Qed.

(** X6: when [config_new] returns NULL for the chosen path, the run
    reports it and exits with EXIT_FAILURE: no override is applied,
    [config_free] is not called, and neither the privilege check nor the
    event loop is reached. *)
Theorem config_load_failure_is_fatal argv :
  first_pass_stop (Getopt.getopt_pass argv OPTSTRING).1 = None →
  config_new (chosen_cfgpath (Getopt.getopt_pass argv OPTSTRING).1) = None →
  exit_status argv = Some EXIT_FAILURE ∧
  EvFprintf Stderr "Failed to load configuration!\n" [] ∈ run_trace argv ∧
  count_of is_config_override (run_trace argv) = 0%nat ∧
  count_of is_config_free (run_trace argv) = 0%nat ∧
  count_of is_getuid (run_trace argv) = 0%nat ∧
  count_of is_evtloop_run (run_trace argv) = 0%nat.
Proof.
  intros Hk Hnew.
  destruct (configure_runs argv Hk) as (t3 & _ & Htr & Hnx & Hnone & _).
  destruct (Hnone Hnew) as (-> & Hfl & Hcf). clear Hnone.
  revert Htr Hnx Hfl Hcf. main_paths argv; simpl; intros Htr Hnx Hfl Hcf.
  - done.
  - subst cf. run_tail. tail_cases. count_events Ht.
    rewrite Htr, app_nil_r, !count_of_app, count_of_strdups by done.
    unfold load_events. rewrite Hnew.
    split_and!; try done.
    + set_solver.
    + destruct (chosen_cfgpath _); by rewrite ?count_of_cons.
  - done.
Qed.

(** X7: [config_free] is called exactly once in a run in which
    [config_new] was reached and returned an object, whichever way the
    run ends afterwards, and never in any other run. *)
Theorem config_freed_exactly_when_loaded argv :
  count_of is_config_free (run_trace argv) =
  match first_pass_stop (Getopt.getopt_pass argv OPTSTRING).1,
        config_new (chosen_cfgpath (Getopt.getopt_pass argv OPTSTRING).1)
  with
  | None, Some _ => 1%nat
  | _, _ => 0%nat
  end.
Proof.
  destruct (first_pass_stop _) as [k|] eqn:Hk.
  - destruct (main_stops argv k Hk) as (t & Ht & -> & _).
    rewrite !count_of_app, (count_of_forall is_strdup) by (done || by intros []).
    destruct k; by rewrite ?count_of_cons.
  - destruct (configure_runs argv Hk) as (t3 & _ & _ & Hnx & Hnone & Hsome).
    revert Hnx Hnone Hsome.
    main_paths argv; simpl; intros Hnx Hnone Hsome.
    + destruct (config_new _) as [c'|].
      * run_tail. tail_cases; by count_events Ht.
      * by destruct (Hnone eq_refl) as (_ & ? & _).
    + destruct (config_new _) as [c'|].
      * destruct Hsome as [c ->]; [by eexists|].
        run_tail. tail_cases; by count_events Ht.
      * destruct (Hnone eq_refl) as (_ & _ & ->).
        run_tail. tail_cases; by count_events Ht.
    + by destruct (Hnx code).
Qed.

(** X8: [-o key=value] is split at the first '=': the split succeeds
    exactly when the text has the shape key, '=', value with no '=' in
    the key, so a value may itself contain '='. *)
Theorem split_at_eq_first_equals s k v :
  split_at_eq s = Some (k, v) ↔
  s = (k ++ String "=" v)%string ∧ mentions "=" k = false.
Proof.
  revert k. induction s as [|c s IH]; intros k; simpl.
  - split; [done|]. intros [H _]. by destruct k.
  - destruct (Ascii.eqb_spec c "=") as [->|Hc].
    + split.
      * intros [= <- <-]. done.
      * intros [H Hk]. destruct k as [|c' k]; simpl in *.
        -- by injection H as ->.
        -- injection H as Hc' Hs. subst c'. simpl in Hk. done.
    + split.
      * intros H. destruct (split_at_eq s) as [[k' v']|] eqn:E; [|done].
        injection H as <- <-.
        destruct (proj1 (IH k') eq_refl) as [-> Hk']. simpl.
        split; [done|]. rewrite Hk'. by destruct (Ascii.eqb_spec c "=").
      * intros [H Hk]. destruct k as [|c' k]; simpl in *.
        -- injection H as Hc' _. congruence.
        -- injection H as Hc' Hs. subst c'.
           apply orb_false_elim in Hk as [_ Hk].
           assert (split_at_eq s = Some (k, v)) as -> by (by apply IH).
           done.
Qed.

(** X9: the split fails, and [-o] is refused with "missing value",
    exactly when its argument contains no '='. *)
Theorem split_at_eq_fails_without_equals s :
  split_at_eq s = None ↔ mentions "=" s = false.
Proof.
  induction s as [|c s IH]; simpl; [done|].
  destruct (Ascii.eqb_spec c "=") as [->|Hc]; simpl; [done|].
  destruct (split_at_eq s) as [[k v]|]; [|done].
  split; [done|]. intros H. by apply IH in H.
Qed.


(** X11: [evtloop_run] is called only if every startup step succeeded:
    the process is root or became root, both policy calls, the
    descriptor limit taken from the configuration after the overrides,
    and the opening and writing of the pidfile all returned something
    other than -1; and it is called on that configuration. *)
Theorem event_loop_entered_only_after_full_startup argv :
  (0 < count_of is_evtloop_run (run_trace argv))%nat →
  (getuid = 0 ∨ setuid 0 ≠ -1) ∧
  policy_task_sched_priority ≠ -1 ∧
  policy_thread_diskio_important ≠ -1 ∧
  sys_pidf_open XNUMON_PIDFILE ≠ -1 ∧
  sys_pidf_write (sys_pidf_open XNUMON_PIDFILE) ≠ -1 ∧
  ∃ c, cfg (configure argv initial_state).2 = Some c ∧
       sys_limit_nofile (cfg_limit_nofile c) ≠ -1 ∧
       EvLimitNofile (cfg_limit_nofile c) ∈ run_trace argv ∧
       EvEvtloopRun c ∈ run_trace argv.
Proof.
  main_paths argv.
  - run_tail. tail_cases; count_events Ht; (intros ?; try lia);
      (split_and!; try done; try (by left); try (by right));
      exists c; split_and!; try done; set_solver.
  - run_tail. destruct cf; tail_cases; count_events Ht; lia.
  - count_events Ht; lia.
Qed.

(** X12: a run that got past the first pass exits with EXIT_SUCCESS only
    if it called [evtloop_run], once, and that call returned something
    other than -1: every earlier way out is a failure. *)
Theorem success_means_event_loop_ran argv :
  first_pass_stop (Getopt.getopt_pass argv OPTSTRING).1 = None →
  exit_status argv = Some EXIT_SUCCESS →
  count_of is_evtloop_run (run_trace argv) = 1%nat ∧
  ∃ c, EvEvtloopRun c ∈ run_trace argv ∧ evtloop_run c ≠ -1.
Proof.
  intros Hk.
  destruct (configure_runs argv Hk) as (t3 & _ & _ & Hnx & _).
  revert Hnx. main_paths argv; simpl; intros Hnx.
  - run_tail. tail_cases; intros ?; try done; count_events Ht;
      (split; [done|]); exists c; (split; [set_solver|done]).
  - run_tail. destruct cf; tail_cases; done.
  - by destruct (Hnx code).
Qed.

Lemma count_of_strdup_map l :
  count_of (R:=R) is_strdup (List.map EvStrdup l) = length l.
Proof.
  induction l as [|a l IH]; simpl; [done|]. by rewrite count_of_cons, IH.
Qed.

(** What lines 77-192 have called when the first pass ran through. *)
Lemma configure_counts argv :
  first_pass_stop (Getopt.getopt_pass argv OPTSTRING).1 = None →
  let tr := trace (configure argv initial_state).2 in
  let cp := chosen_cfgpath (Getopt.getopt_pass argv OPTSTRING).1 in
  count_of is_debug_init tr = 1%nat ∧
  count_of is_umask tr = 1%nat ∧
  count_of is_config_new tr = 1%nat ∧
  EvConfigNew cp ∈ tr ∧
  count_of is_strdup tr =
    length (cfgpath_args (Getopt.getopt_pass argv OPTSTRING).1) ∧
  count_of is_free_cfgpath tr = (if cp is Some _ then 1 else 0)%nat ∧
  count_of touches_files (trace_before is_umask tr) = 0%nat.
Proof.
  intros Hk. simpl.
  destruct (configure_runs argv Hk) as (t3 & Ht3 & -> & _).
  set (cp := chosen_cfgpath _). set (args := cfgpath_args _).
  assert (H3 : ∀ q : event R → bool,
    (∀ e, is_second_pass_event e || is_exit e = true → q e = false) →
    count_of q t3 = 0%nat).
  { intros q Hq. by apply (count_of_forall _ q t3 Ht3). }
  rewrite !count_of_app, count_of_strdup_map, !count_of_strdups by done.
  rewrite !H3 by (intros []; done).
  rewrite (trace_before_app is_umask) by (by apply count_of_strdups).
  unfold load_events. simpl.
  rewrite !count_of_app, !count_of_cons, !count_of_strdups by done.
  destruct cp, (config_new _); simpl;
    rewrite ?count_of_app, ?count_of_cons, ?count_of_nil; simpl;
    rewrite ?H3 by (intros []; done);
    split_and!; try done; set_solver.
Qed.

(** X13: [debug_init] and [debug_fini] come in pairs: a run that stops
    in the first pass calls neither, every other run calls each exactly
    once, [debug_init] first, whichever way the run ends. *)
Theorem debug_init_and_fini_are_paired argv :
  count_of is_debug_init (run_trace argv) =
    (if first_pass_stop (Getopt.getopt_pass argv OPTSTRING).1 is None
     then 1 else 0)%nat ∧
  count_of is_debug_fini (run_trace argv) =
    count_of is_debug_init (run_trace argv) ∧
  count_of is_debug_fini (trace_before is_debug_init (run_trace argv))
    = 0%nat.
Proof.
  destruct (first_pass_stop _) as [k|] eqn:Hk.
  - destruct (main_stops argv k Hk) as (t & Ht & -> & _).
    rewrite !count_of_stopped_run by (done || by intros []).
    split_and!; [done..|].
    apply Nat.le_0_r. etrans; [apply trace_before_count_le|].
    by rewrite count_of_stopped_run by (done || by intros []).
  - destruct (configure_counts argv Hk) as (Hinit & _). simpl in Hinit.
    destruct (configure_runs argv Hk) as (t3 & _ & _ & Hnx & _).
    revert Hinit Hnx. main_paths argv; simpl; intros Hinit Hnx.
    + run_tail.
      tail_cases; rewrite <- ?List.app_assoc; simpl;
        rewrite trace_before_app_some by lia;
        count_events Ht; count_more Ht; rewrite Hinit;
        (split_and!; [done..|]);
        apply Nat.le_0_r; (etrans; [apply trace_before_count_le|]);
        by rewrite (count_of_configure is_debug_fini _
                      ltac:(by_cases_on_event) Ht).
    + run_tail.
      destruct cf; tail_cases; rewrite <- ?List.app_assoc; simpl;
        rewrite trace_before_app_some by lia;
        count_events Ht; count_more Ht; rewrite Hinit;
        (split_and!; [done..|]);
        apply Nat.le_0_r; (etrans; [apply trace_before_count_le|]);
        by rewrite (count_of_configure is_debug_fini _
                      ltac:(by_cases_on_event) Ht).
    + by destruct (Hnx code).
Qed.

Ltac count_tail := rewrite ?count_of_app, ?count_of_cons, ?count_of_nil.

(** X14: with several -c options the last one wins: a run that gets past
    the first pass calls [config_new] exactly once, with the copy of the
    last -c argument, or with NULL when there is no -c. *)
Theorem last_config_path_is_loaded argv :
  first_pass_stop (Getopt.getopt_pass argv OPTSTRING).1 = None →
  count_of is_config_new (run_trace argv) = 1%nat ∧
  EvConfigNew
    (last (cfgpath_args (Getopt.getopt_pass argv OPTSTRING).1) ≫= strdup)
    ∈ run_trace argv.
Proof.
  intros Hk.
  destruct (configure_counts argv Hk) as (_ & _ & Hnew & Hin & _).
  destruct (configure_runs argv Hk) as (t3 & _ & _ & Hnx & _).
  unfold chosen_cfgpath in Hin. simpl in Hnew, Hin.
  revert Hnew Hin Hnx. main_paths argv; simpl; intros Hnew Hin Hnx.
  - run_tail. tail_cases; count_tail; rewrite Hnew; simpl;
      (split; [done|set_solver]).
  - run_tail. destruct cf; tail_cases; count_tail; rewrite Hnew; simpl;
      (split; [done|set_solver]).
  - by destruct (Hnx code).
Qed.

(** X15: a run that gets past the first pass has called [strdup] once
    per -c option but frees the copy at most once, namely when [cfgpath]
    is not NULL at line 120: the copies of all but the last -c are never
    freed. *)
Theorem config_path_copies_freed_at_most_once argv :
  first_pass_stop (Getopt.getopt_pass argv OPTSTRING).1 = None →
  count_of is_strdup (run_trace argv) =
    length (cfgpath_args (Getopt.getopt_pass argv OPTSTRING).1) ∧
  count_of is_free_cfgpath (run_trace argv) =
    (if chosen_cfgpath (Getopt.getopt_pass argv OPTSTRING).1 is Some _
     then 1 else 0)%nat.
Proof.
  intros Hk.
  destruct (configure_counts argv Hk) as (_ & _ & _ & _ & Hdup & Hfree & _).
  destruct (configure_runs argv Hk) as (t3 & _ & _ & Hnx & _).
  simpl in Hdup, Hfree.
  revert Hdup Hfree Hnx. main_paths argv; simpl; intros Hdup Hfree Hnx.
  - run_tail. tail_cases; count_tail; rewrite Hdup, Hfree; simpl;
      split; lia.
  - run_tail. destruct cf; tail_cases; count_tail; rewrite Hdup, Hfree;
      simpl; split; lia.
  - by destruct (Hnx code).
Qed.

(** X16: every run ends in exactly one call of [exit], its last action,
    and the status is EXIT_SUCCESS or EXIT_FAILURE. *)
Theorem run_ends_in_one_exit argv :
  ∃ pre code,
    run_trace argv = (pre ++ [EvExit code])%list ∧
    count_of is_exit pre = 0%nat ∧
    exit_status argv = Some code ∧
    (code = EXIT_SUCCESS ∨ code = EXIT_FAILURE).
Proof.
  destruct (first_pass_stop (Getopt.getopt_pass argv OPTSTRING).1)
    as [k|] eqn:Hk.
  - destruct (main_stops argv k Hk) as (t & Ht & -> & ->).
    eexists (t ++ _)%list, _. rewrite <- List.app_assoc.
    split; [reflexivity|].
    rewrite count_of_app, (count_of_forall is_strdup is_exit t Ht)
      by (by intros []).
    split_and!; [|done|].
    + destruct k; by rewrite ?count_of_cons.
    + destruct k; simpl; auto.
  - destruct (configure_runs argv Hk) as (t3 & _ & _ & Hnx & _).
    revert Hnx. main_paths argv; simpl; intros Hnx.
    + run_tail. tail_cases; eexists _, _; (split; [reflexivity|]);
        count_events Ht; split_and!; auto.
    + run_tail. destruct cf; tail_cases; eexists _, _;
        (split; [reflexivity|]); count_events Ht; split_and!; auto.
    + by destruct (Hnx code).
Qed.


(* --------------------------------------------------------------------- *)
(** *** The second pass, step by step *)
(* --------------------------------------------------------------------- *)

(** One option of the second pass that falls through has made exactly
    the write of [override_call] and left the object of
    [apply_override]. *)
Lemma second_pass_case_normal o s c0 s' :
  cfg s = Some c0 →
  second_pass_case o s = (Normal (), s') →
  s' = mkState (cfgpath s) (Some (apply_override c0 o)) (pidfd s) (rv s)
               (trace s ++ override_call o)%list.
Proof.
  destruct o as [ch optarg]. destruct s as [cp cf pf r tr]. simpl.
  intros ->.
  unfold second_pass_case, apply_override, override_call, call_config_str,
    with_cfg, fprintf, mbind, M_bind, mret, M_ret, emit, goto_errout,
    set_cfg.
  simpl.
  destruct (switch ch); simpl;
    try destruct (split_at_eq _) as [[key value]|]; simpl;
    try case_bool_decide; simpl; intros [= <-];
    rewrite ?app_nil_r; reflexivity.
Qed.

Lemma second_pass_normal l s c0 s' :
  cfg s = Some c0 →
  for_each second_pass_case l s = (Normal (), s') →
  s' = mkState (cfgpath s) (Some (foldl apply_override c0 l)) (pidfd s)
               (rv s) (trace s ++ List.flat_map override_call l)%list.
Proof.
  revert s c0. induction l as [|o l IH]; intros s c0 Hc.
  { simpl. intros [= <-]. destruct s. simpl in *. subst.
    by rewrite app_nil_r. }
  rewrite for_each_cons.
  destruct (second_pass_case o s) as [[[]| |c] s1] eqn:E; [|done..].
  apply (second_pass_case_normal _ _ c0) in E; [|done]. subst s1.
  intros H. apply (IH _ (apply_override c0 o)) in H; [|done].
  subst s'. simpl. by rewrite <- List.app_assoc.
Qed.

(** The state in which lines 77-192 fall through to the privilege
    check. *)
Lemma configure_normal argv s' :
  configure argv initial_state = (Normal (), s') →
  first_pass_stop (Getopt.getopt_pass argv OPTSTRING).1 = None ∧
  ∃ c0,
    config_new (chosen_cfgpath (Getopt.getopt_pass argv OPTSTRING).1)
      = Some c0 ∧
    cfg s' = Some (foldl apply_override c0
                     (Getopt.getopt_pass argv OPTSTRING).1) ∧
    trace s' =
      (List.map EvStrdup
         (cfgpath_args (Getopt.getopt_pass argv OPTSTRING).1) ++
       load_events (chosen_cfgpath (Getopt.getopt_pass argv OPTSTRING).1) ++
       List.flat_map override_call (Getopt.getopt_pass argv OPTSTRING).1 ++
       [EvFprintf Stderr
          "Loaded configuration overrides from command line\n" []])%list.
Proof.
  unfold configure. rewrite bind_run.
  pose proof (first_pass_run (default "" (head argv))
                (Getopt.getopt_pass argv OPTSTRING).1 initial_state) as H.
  destruct (first_pass_stop _) as [k|] eqn:Hk.
  { destruct H as (t & cp & _ & ->). done. }
  rewrite H. clear H. simpl.
  assert (Hcp : match last (cfgpath_args (Getopt.getopt_pass argv OPTSTRING).1)
                with Some a => strdup a | None => None end =
                chosen_cfgpath (Getopt.getopt_pass argv OPTSTRING).1).
  { unfold chosen_cfgpath. by destruct (last _). }
  rewrite Hcp. set (cp := chosen_cfgpath _).
  rewrite bind_run, load_configuration_run. simpl.
  destruct (config_new cp) as [c0|] eqn:Hc0; [|done].
  rewrite bind_run.
  destruct (for_each second_pass_case _ _) as [[[]| |c] s3] eqn:E2; [|done..].
  apply (second_pass_normal _ _ c0) in E2; [|done]. subst s3. simpl.
  unfold fprintf, emit, mbind, M_bind, mret, M_ret, goto_errout. simpl.
  destruct (operands_left argv); simpl; [done|].
  intros [= <-]. split; [done|]. exists c0. simpl.
  split; [done|]. split; [done|].
  rewrite <- !List.app_assoc. f_equal.
  unfold load_events. rewrite Hc0. simpl. by rewrite <- !List.app_assoc.
Qed.

Lemma config_writes_of_strdups l :
  List.filter (is_config_write (R:=R)) (List.map EvStrdup l) = [].
Proof. induction l as [|a l IH]; simpl; done. Qed.

Lemma config_writes_of_load cp :
  List.filter is_config_write (load_events cp) = [EvConfigNew cp].
Proof. unfold load_events. by destruct cp, (config_new _). Qed.

Lemma config_writes_of_overrides l :
  List.filter is_config_write (List.flat_map (override_call (R:=R)) l) =
  List.flat_map override_call l.
Proof.
  induction l as [|[ch optarg] l IH]; simpl; [done|].
  rewrite List.filter_app, IH. f_equal.
  unfold override_call. simpl.
  destruct (switch ch); try done.
  by destruct (split_at_eq _) as [[??]|].
Qed.

(** The configuration a run enters the event loop with: the object that
    [config_new] returned for the chosen path, with every override of
    the command line applied in order; and up to that call the writes to
    the configuration are [config_new] followed by exactly those
    overrides. *)
Lemma event_loop_config argv :
  (0 < count_of is_evtloop_run (run_trace argv))%nat →
  first_pass_stop (Getopt.getopt_pass argv OPTSTRING).1 = None ∧
  ∃ c0 c,
    config_new (chosen_cfgpath (Getopt.getopt_pass argv OPTSTRING).1)
      = Some c0 ∧
    c = foldl apply_override c0 (Getopt.getopt_pass argv OPTSTRING).1 ∧
    EvEvtloopRun c ∈ run_trace argv ∧
    List.filter is_config_write
      (trace_before is_evtloop_run (run_trace argv)) =
    EvConfigNew (chosen_cfgpath (Getopt.getopt_pass argv OPTSTRING).1) ::
    List.flat_map override_call (Getopt.getopt_pass argv OPTSTRING).1.
Proof.
  pose proof (configure_normal argv) as Hn.
  main_paths argv.
  - destruct (Hn _ eq_refl) as (Hk & c0 & Hc0 & Hcfg & Htr). clear Hn.
    cbn [trace cfg snd] in Hcfg, Htr. injection Hcfg as Hcfg.
    pose proof (config_writes_of_load
                  (chosen_cfgpath (Getopt.getopt_pass argv OPTSTRING).1))
      as Hle.
    set (le := load_events _) in *. clearbody le.
    run_tail.
    tail_cases; count_events Ht; (intros ?; try lia);
      (split; [done|]); exists c0, c; (split; [done|]); (split; [done|]);
      (split; [set_solver|]);
      split_trace Ht; rewrite List.filter_app; simpl; rewrite app_nil_r;
      rewrite Htr, !List.filter_app, config_writes_of_strdups,
        Hle, config_writes_of_overrides; simpl;
      by rewrite app_nil_r.
  - run_tail. destruct cf; tail_cases; count_events Ht; lia.
  - count_events Ht; lia.
Qed.

Lemma cfgpath_args_of_first_pass_options l :
  cfgpath_args l = cfgpath_args (List.filter (λ o, negb (is_override o)) l).
Proof.
  induction l as [|[ch optarg] l IH]; [done|].
  cbn [List.filter]. rewrite cfgpath_args_cons.
  unfold is_override, is_cfgpath_option. simpl.
  destruct (switch ch) eqn:E; simpl; rewrite ?cfgpath_args_cons;
    unfold is_cfgpath_option; simpl; rewrite ?E; by rewrite ?IH.
Qed.

Lemma apply_overrides_only l c :
  foldl apply_override c l = foldl apply_override c (List.filter is_override l).
Proof.
  revert c. induction l as [|[ch optarg] l IH]; intros c; [done|].
  cbn [List.filter]. unfold is_override at 1. simpl.
  destruct (switch ch) eqn:E; simpl; rewrite <- ?IH;
    unfold apply_override; simpl; by rewrite E.
Qed.

Lemma override_calls_only l :
  List.flat_map (override_call (R:=R)) l =
  List.flat_map override_call (List.filter is_override l).
Proof.
  induction l as [|[ch optarg] l IH]; [done|].
  cbn [List.filter]. unfold is_override at 1. simpl.
  destruct (switch ch) eqn:E; simpl; rewrite <- ?IH;
    unfold override_call; simpl; by rewrite E.
Qed.

(** C4: from the call of [evtloop_run] on, [main] writes nothing to the
    configuration object, which it frees once the loop has returned; every
    [config_new], [config_str] and [launchd_mode] write of the run comes
    before that call, which happens at most once.  When the call happens,
    the writes before it are [config_new] and then the write of each
    override option (-o, -l, -f, -1, -m, -d) of the command line, in
    order, and the loop is entered on the object with all of them
    applied. *)
Theorem config_written_only_before_event_loop argv :
  let t := run_trace argv in
  count_of is_config_write (trace_from is_evtloop_run t) = 0%nat ∧
  count_of is_config_write (trace_before is_evtloop_run t) =
    count_of is_config_write t ∧
  count_of is_config_free (trace_from is_evtloop_run t) =
    count_of is_evtloop_run t ∧
  (count_of is_evtloop_run t ≤ 1)%nat ∧
  ((0 < count_of is_evtloop_run t)%nat →
   ∃ c0 c,
     config_new (chosen_cfgpath (Getopt.getopt_pass argv OPTSTRING).1)
       = Some c0 ∧
     c = foldl apply_override c0
           (List.filter is_override (Getopt.getopt_pass argv OPTSTRING).1) ∧
     EvEvtloopRun c ∈ t ∧
     List.filter is_config_write (trace_before is_evtloop_run t) =
       EvConfigNew (chosen_cfgpath (Getopt.getopt_pass argv OPTSTRING).1) ::
       List.flat_map override_call
         (List.filter is_override (Getopt.getopt_pass argv OPTSTRING).1)).
Proof.
  simpl.
  assert (Hlater :
    count_of is_config_write (trace_from is_evtloop_run (run_trace argv))
      = 0%nat ∧
    count_of is_config_write (trace_before is_evtloop_run (run_trace argv))
      = count_of is_config_write (run_trace argv) ∧
    count_of is_config_free (trace_from is_evtloop_run (run_trace argv))
      = count_of is_evtloop_run (run_trace argv) ∧
    (count_of is_evtloop_run (run_trace argv) ≤ 1)%nat).
  { main_paths argv.
    - run_tail. tail_cases; split_trace Ht; count_events Ht;
        split_and!; auto with lia.
    - run_tail. destruct cf; tail_cases; split_trace Ht; count_events Ht;
        split_and!; auto with lia.
    - split_trace Ht; count_events Ht; split_and!; auto with lia. }
  destruct Hlater as (H1 & H2 & H3 & H4). split_and!; try done.
  intros Hloop.
  destruct (event_loop_config argv Hloop) as (_ & c0 & c & H0 & Hc & Hin & Hw).
  exists c0, c. rewrite <- apply_overrides_only, <- override_calls_only.
  done.
Qed.

(** C10: the first pass acts on -c, -V and -h only and the second on the
    overrides only, so two argument vectors whose parses differ only in
    how the first-pass options and the overrides are interleaved give the
    same run; no override is applied before [config_new]; and when the
    run enters the event loop, [config_new] has loaded the last -c path
    of the first-pass options and the loop gets that object with the
    overrides applied in their own order, which is the same object for
    both vectors. *)
Theorem passes_make_option_order_irrelevant argv1 argv2 :
  head argv1 = head argv2 →
  List.filter is_override (Getopt.getopt_pass argv1 OPTSTRING).1 =
    List.filter is_override (Getopt.getopt_pass argv2 OPTSTRING).1 →
  List.filter (λ o, negb (is_override o))
              (Getopt.getopt_pass argv1 OPTSTRING).1 =
    List.filter (λ o, negb (is_override o))
                (Getopt.getopt_pass argv2 OPTSTRING).1 →
  operands_left argv1 = operands_left argv2 →
  run_trace argv1 = run_trace argv2 ∧
  exit_status argv1 = exit_status argv2 ∧
  count_of is_config_override
    (trace_before is_config_new (run_trace argv1)) = 0%nat ∧
  ((0 < count_of is_evtloop_run (run_trace argv1))%nat →
   ∃ c0 c,
     config_new
       (last (cfgpath_args
                (List.filter (λ o, negb (is_override o))
                   (Getopt.getopt_pass argv1 OPTSTRING).1)) ≫= strdup)
       = Some c0 ∧
     c = foldl apply_override c0
           (List.filter is_override (Getopt.getopt_pass argv1 OPTSTRING).1) ∧
     EvEvtloopRun c ∈ run_trace argv1 ∧
     EvEvtloopRun c ∈ run_trace argv2 ∧
     List.filter is_config_write
       (trace_before is_evtloop_run (run_trace argv1)) =
       EvConfigNew
         (last (cfgpath_args
                  (List.filter (λ o, negb (is_override o))
                     (Getopt.getopt_pass argv1 OPTSTRING).1)) ≫= strdup) ::
       List.flat_map override_call
         (List.filter is_override (Getopt.getopt_pass argv1 OPTSTRING).1)).
Proof.
  intros H0 Ho Hf Hr.
  assert (Hmain : main argv1 initial_state = main argv2 initial_state).
  { unfold main, before_errout, startup. rewrite !bind_run.
    by rewrite (configure_depends_on_passes argv1 argv2). }
  assert (Htrace : run_trace argv1 = run_trace argv2).
  { unfold run_trace. by rewrite Hmain. }
  split; [done|]. split; [unfold exit_status; by rewrite Hmain|].
  split.
  - pose proof (configure_loads_before_overrides argv1) as Hcfg.
    apply Nat.le_0_r. revert Hcfg. main_paths argv1; intros Hcfg.
    + run_tail. tail_cases; rewrite <- ?List.app_assoc; simpl;
        (etrans; [apply trace_before_app_le|]);
        rewrite Hcfg, ?count_of_cons, ?count_of_nil; simpl; lia.
    + run_tail. destruct cf; tail_cases; rewrite <- ?List.app_assoc; simpl;
        (etrans; [apply trace_before_app_le|]);
        rewrite Hcfg, ?count_of_cons, ?count_of_nil; simpl; lia.
    + by rewrite Hcfg.
  - intros Hloop.
    destruct (event_loop_config argv1 Hloop)
      as (_ & c0 & c & Hc0 & Hc & Hin & Hw).
    unfold chosen_cfgpath in Hc0, Hw.
    rewrite cfgpath_args_of_first_pass_options in Hc0, Hw.
    rewrite apply_overrides_only in Hc. rewrite override_calls_only in Hw.
    exists c0, c. split_and!; try done. by rewrite <- Htrace.
Qed.
End MainProperties.

(* ===================================================================== *)
(** ** Properties of the pipeline *)
(* ===================================================================== *)

Section PipelineProperties.





Lemma current_onExit t pid : current (onExit t pid) = current t.
Proof. unfold onExit. by destruct (live t pid) as [[k e]|]. Qed.

Lemma current_make_room ceiling t : current (make_room ceiling t) = current t.
Proof.
  unfold make_room. destruct (decide _); [done|].
  by destruct (exited_queue t).
Qed.

Lemma current_genesis ceiling t pid parent image :
  current (genesis ceiling t pid parent image) =
  <[pid := next_gen t pid]> (current t).
Proof.
  unfold genesis. simpl. by rewrite current_make_room, current_onExit.
Qed.

(** A genesis makes the pid resolve to the new entry, which carries the
    fresh generation. *)
Lemma lookup_genesis ceiling t pid parent image :
  lookup (genesis ceiling t pid parent image) pid =
  Some (mkProcessEntry pid (next_gen t pid) parent image false ∅).
Proof.
  unfold lookup. rewrite current_genesis, lookup_insert_eq. simpl.
  by rewrite lookup_insert_eq.
Qed.

Lemma current_put t k e : current (put t k e) = current t.
Proof. done. Qed.

(** The generation a pid resolves to never decreases. *)
Lemma current_correlate ceiling t r pid g :
  current t !! pid = Some g →
  ∃ g', current (correlate ceiling t r).1 !! pid = Some g' ∧ (g ≤ g')%nat.
Proof.
  intros Hg.
  assert (Hgen : ∀ p parent image,
    ∃ g', current (genesis ceiling t p parent image) !! pid = Some g' ∧
          (g ≤ g')%nat).
  { intros p parent image. rewrite current_genesis.
    destruct (decide (p = pid)) as [->|Hne].
    - rewrite lookup_insert_eq. unfold next_gen. rewrite Hg. simpl.
      eexists. split; [done|lia].
    - rewrite lookup_insert_ne by done. eauto. }
  destruct r as [parent child|p image argv status|p|p fd path flags
                |p fd len|p fd]; cbn [correlate fst].
  - apply Hgen.
  - destruct (decide (status = 0)) as [Hs|Hs]; cbn [fst]; [|eauto].
    unfold onExec. destruct (live t p) as [[k en]|]; [eauto|apply Hgen].
  - rewrite current_onExit. eauto.
  - destruct (live t p) as [[k en]|]; cbn [fst]; eauto.
  - destruct (live t p) as [[k en]|]; cbn [fst]; eauto.
  - destruct (live t p) as [[k en]|]; cbn [fst]; eauto.
Qed.

Lemma current_correlate_all ceiling rs t pid g :
  current t !! pid = Some g →
  ∃ g', current (correlate_all ceiling t rs).1 !! pid = Some g' ∧
        (g ≤ g')%nat.
Proof.
  revert t g. induction rs as [|r rs IH]; intros t g Hg; simpl; [eauto|].
  destruct (current_correlate ceiling t r pid g Hg) as (g1 & Hg1 & Hle).
  destruct (correlate ceiling t r) as [t1 evs]. simpl in Hg1.
  destruct (IH t1 g1 Hg1) as (g2 & Hg2 & Hle2).
  destruct (correlate_all ceiling t1 rs) as [t2 evs']. simpl in *.
  exists g2. split; [done|lia].
Qed.

Lemma live_entry t pid k e :
  live t pid = Some (k, e) → entries t !! k = Some e.
Proof.
  unfold live. destruct (current t !! pid) as [g|]; simpl; [|done].
  destruct (entries t !! (pid, g)) as [e'|] eqn:E; simpl; [|done].
  destruct (pe_exited e'); [done|]. by intros [= <- <-].
Qed.

Lemma keyed_put t pid k e e' :
  keyed_by_identity t → live t pid = Some (k, e) →
  pe_pid e' = pe_pid e → pe_gen e' = pe_gen e →
  keyed_by_identity (put t k e').
Proof.
  intros Ht Hlive Hp Hg p g x. unfold put. simpl.
  apply live_entry in Hlive. destruct k as [kp kg].
  destruct (Ht _ _ _ Hlive) as [Hp' Hg'].
  destruct (decide ((kp, kg) = (p, g))) as [[= -> ->]|Hne].
  - rewrite lookup_insert_eq. intros [= <-]. split; congruence.
  - rewrite lookup_insert_ne by done. apply Ht.
Qed.

Lemma keyed_onExit t pid : keyed_by_identity t → keyed_by_identity (onExit t pid).
Proof.
  intros Ht. unfold onExit. destruct (live t pid) as [[k e]|] eqn:E; [|done].
  by apply (keyed_put t pid k e (set_exited e)).
Qed.

Lemma keyed_make_room ceiling t :
  keyed_by_identity t → keyed_by_identity (make_room ceiling t).
Proof.
  intros Ht. unfold make_room. destruct (decide _); [done|].
  destruct (exited_queue t) as [|k q]; [done|].
  intros p g e. simpl. intros He. apply lookup_delete_Some in He as [_ He].
  by apply Ht.
Qed.

Lemma keyed_genesis ceiling t pid parent image :
  keyed_by_identity t → keyed_by_identity (genesis ceiling t pid parent image).
Proof.
  intros Ht p g e. unfold genesis. simpl.
  destruct (decide ((pid, next_gen t pid) = (p, g))) as [[= -> <-]|Hne].
  - rewrite lookup_insert_eq. by intros [= <-].
  - rewrite lookup_insert_ne by done.
    by apply keyed_make_room, keyed_onExit.
Qed.

Lemma keyed_correlate ceiling t r :
  keyed_by_identity t → keyed_by_identity (correlate ceiling t r).1.
Proof.
  intros Ht.
  destruct r as [parent child|p image argv status|p|p fd path flags
                |p fd len|p fd]; cbn [correlate fst].
  - by apply keyed_genesis.
  - destruct (decide (status = 0)) as [Hs|Hs]; cbn [fst]; [|done].
    unfold onExec. destruct (live t p) as [[k e]|] eqn:E.
    + by apply (keyed_put t p k e).
    + by apply keyed_genesis.
  - by apply keyed_onExit.
  - destruct (live t p) as [[k e]|] eqn:E; cbn [fst]; [|done].
    by apply (keyed_put t p k e).
  - destruct (live t p) as [[k e]|] eqn:E; cbn [fst]; [|done].
    by apply (keyed_put t p k e).
  - destruct (live t p) as [[k e]|] eqn:E; cbn [fst]; [|done].
    by apply (keyed_put t p k e).
Qed.

Lemma keyed_correlate_all ceiling rs t :
  keyed_by_identity t → keyed_by_identity (correlate_all ceiling t rs).1.
Proof.
  revert t. induction rs as [|r rs IH]; intros t Ht; simpl; [done|].
  pose proof (keyed_correlate ceiling t r Ht) as H1.
  destruct (correlate ceiling t r) as [t1 evs].
  pose proof (IH t1 H1) as H2.
  by destruct (correlate_all ceiling t1 rs) as [t2 evs'].
Qed.

(** C3: after fork(pid=7), exit(pid=7), fork(pid=7) on a fresh table, a
    lookup of pid 7 gives the entry stored under (7, 2), whose generation
    is 2; and whatever records follow, a lookup of pid 7 never gives an
    entry of generation 1 again. *)
Theorem pid_reuse_resolves_to_new_generation ceiling parent1 parent2 :
  let t := (correlate_all ceiling empty_table
              (reuse_records parent1 parent2)).1 in
  lookup t 7 = entries t !! (7, 2%nat) ∧
  pe_pid <$> lookup t 7 = Some 7 ∧
  pe_gen <$> lookup t 7 = Some 2%nat ∧
  pe_exited <$> lookup t 7 = Some false ∧
  ∀ rs, match lookup (correlate_all ceiling t rs).1 7 with
        | Some e => pe_pid e = 7 ∧ (2 ≤ pe_gen e)%nat
        | None => True
        end.
Proof.
  simpl.
  set (t1 := onFork ceiling empty_table parent1 7).
  set (t2 := onExit t1 7).
  set (t3 := onFork ceiling t2 parent2 7).
  assert (Hc1 : current t1 !! 7 = Some 1%nat).
  { unfold t1, onFork. by rewrite current_genesis, lookup_insert_eq. }
  assert (Hc2 : current t2 !! 7 = Some 1%nat).
  { unfold t2. by rewrite current_onExit. }
  assert (Hn : next_gen t2 7 = 2%nat).
  { unfold next_gen. by rewrite Hc2. }
  assert (Hc3 : current t3 !! 7 = Some 2%nat).
  { unfold t3, onFork. by rewrite current_genesis, lookup_insert_eq, Hn. }
  assert (Hl : lookup t3 7 =
               Some (mkProcessEntry 7 2 ((λ g, (parent2, g)) <$>
                                           current t2 !! parent2)
                       (default "" (pe_image <$> lookup t2 parent2))
                       false ∅)).
  { unfold t3, onFork. by rewrite lookup_genesis, Hn. }
  split_and!.
  - unfold lookup at 1. by rewrite Hc3.
  - by rewrite Hl.
  - by rewrite Hl.
  - by rewrite Hl.
  - intros rs.
    assert (Hk : keyed_by_identity t3).
    { unfold t3, t2, t1, onFork.
      apply keyed_genesis, keyed_onExit, keyed_genesis. by intros p g e. }
    pose proof (keyed_correlate_all ceiling rs t3 Hk) as Hk'.
    destruct (current_correlate_all ceiling rs t3 7 2 Hc3) as (g & Hg & Hle).
    unfold lookup. rewrite Hg. simpl.
    destruct (entries _ !! (7, g)) as [e|] eqn:E; [|done].
    destruct (Hk' _ _ _ E) as [-> ->]. done.
Qed.

Lemma filter_event_suppress policy ev :
  filter_event policy ev = None ↔ policy ev = Some Suppress.
Proof.
  unfold filter_event. destruct (policy ev) as [[| |fs]|]; split; done.
Qed.

Lemma omap_pass_all (evs : list SecurityEvent) :
  omap (filter_event pass_all) evs = evs.
Proof. induction evs as [|ev evs IH]; simpl; [done|]. f_equal. exact IH. Qed.

(** One turn of the loop: the policy decides what is appended to the
    sink and nothing else. *)
Lemma step_ground_truth ceiling policy p q f :
  same_ground_truth p q →
  same_ground_truth (step ceiling policy p f) (step ceiling pass_all q f) ∧
  sink (step ceiling policy p f) =
    (sink p ++ omap (filter_event policy)
                    (match fr_decoded f with
                     | None => []
                     | Some r =>
                         (correlate ceiling
                            (if is_gap (last_seq q) (fr_seq f)
                             then on_gap (table q) else table q) r).2
                     end))%list.
Proof.
  intros (Ht & Hs & Hd & Hg). unfold step. rewrite Ht, Hs, Hd, Hg.
  destruct (fr_decoded f) as [r|]; simpl.
  - destruct (correlate ceiling _ r) as [t1 evs]. simpl. by repeat split.
  - rewrite app_nil_r. by repeat split.
Qed.

Lemma run_ground_truth ceiling policy fs p q :
  same_ground_truth p q →
  same_ground_truth (run ceiling policy p fs) (run ceiling pass_all q fs) ∧
  sink (run ceiling policy p fs) =
    (sink p ++ omap (filter_event policy) (assembled ceiling q fs))%list.
Proof.
  revert p q. induction fs as [|f fs IH]; intros p q Hpq.
  - simpl. by rewrite app_nil_r.
  - destruct (step_ground_truth ceiling policy p q f Hpq) as [Hstep Hsink].
    destruct (IH _ _ Hstep) as [Hrun Hs].
    change (run ceiling policy p (f :: fs))
      with (run ceiling policy (step ceiling policy p f) fs).
    change (run ceiling pass_all q (f :: fs))
      with (run ceiling pass_all (step ceiling pass_all q f) fs).
    split; [done|].
    rewrite Hs, Hsink. cbn [assembled]. by rewrite omap_app, <- app_assoc.
Qed.

(** C7: whatever the policy, a run leaves the process table, with the
    descriptor tables in it, and the counters exactly as the run that
    forwards every event does; the sink receives the assembled events
    filtered by the policy, and an event is filtered out exactly when the
    policy marks it suppress. *)
Theorem suppression_only_filters_the_sink ceiling policy p fs :
  same_ground_truth (run ceiling policy p fs) (run ceiling pass_all p fs) ∧
  sink (run ceiling policy p fs) =
    (sink p ++ omap (filter_event policy) (assembled ceiling p fs))%list ∧
  sink (run ceiling pass_all p fs) = (sink p ++ assembled ceiling p fs)%list ∧
  ∀ ev, filter_event policy ev = None ↔ policy ev = Some Suppress.
Proof.
  assert (Hpp : same_ground_truth p p) by done.
  destruct (run_ground_truth ceiling policy fs p p Hpp) as [H1 H2].
  destruct (run_ground_truth ceiling pass_all fs p p Hpp) as [_ H3].
  rewrite omap_pass_all in H3.
  split_and!; try done. apply filter_event_suppress.
Qed.
End PipelineProperties.

(* ===================================================================== *)
(** ** The theorems at work on concrete runs *)
(* ===================================================================== *)

(** As root with a free pidfile, [xnumon -d -c /tmp/c.plist -o k=v -l yaml]
    starts up, runs the event loop once and exits with its verdict. *)
Lemma healthy_run_follows_event_loop :
  (startup (platform := Demo.healthy) Demo.argv_overrides initial_state).1
    = Normal () ∧
  ∃ c pre,
    cfg (startup (platform := Demo.healthy) Demo.argv_overrides
           initial_state).2 = Some c ∧
    run_trace (platform := Demo.healthy) Demo.argv_overrides =
      (pre ++ [EvExit (if bool_decide
                            (evtloop_run (Platform := Demo.healthy) c = -1)
                       then EXIT_FAILURE else EXIT_SUCCESS)])%list ∧
    EvEvtloopRun c ∈ pre ∧
    count_of is_evtloop_run pre = 1%nat ∧
    count_of is_exit pre = 0%nat ∧
    exit_status (platform := Demo.healthy) Demo.argv_overrides =
      Some (if bool_decide (evtloop_run (Platform := Demo.healthy) c = -1)
            then EXIT_FAILURE else EXIT_SUCCESS).
Proof.
  split; [reflexivity|].
  apply (main_exit_status_follows_event_loop (platform := Demo.healthy)
           Demo.argv_overrides).
  reflexivity.
Defined.

(** With the pidfile locked by another instance the run stops at
    [sys_pidf_open]. *)
Lemma second_instance_stops_at_pidfile :
  sys_pidf_open (Platform := Demo.already_running) XNUMON_PIDFILE = -1 ∧
  (0 < count_of is_pidf_open
         (run_trace (platform := Demo.already_running) Demo.argv_plain))%nat ∧
  exit_status (platform := Demo.already_running) Demo.argv_plain
    = Some EXIT_FAILURE ∧
  count_of is_evtloop_run
    (run_trace (platform := Demo.already_running) Demo.argv_plain) = 0%nat ∧
  EvFprintf Stderr "Failed to open pidfile%s\n"
    [AStr (if bool_decide
                (errno_after_pidf_open (Platform := Demo.already_running)
                 = EWOULDBLOCK)
           then " - already running?" else "")]
    ∈ run_trace (platform := Demo.already_running) Demo.argv_plain.
Proof.
  split; [reflexivity|]. split; [vm_compute; lia|].
  apply (pidfile_open_failure_is_fatal (platform := Demo.already_running)
           Demo.argv_plain); [reflexivity|vm_compute; lia].
Defined.

(** Started by uid 501 with [setuid(0)] refused, the run stops at the
    privilege check. *)
Lemma unprivileged_run_stops_at_setuid :
  getuid (Platform := Demo.not_root) ≠ 0 ∧
  setuid (Platform := Demo.not_root) 0 = -1 ∧
  (0 < count_of is_getuid
         (run_trace (platform := Demo.not_root) Demo.argv_plain))%nat ∧
  exit_status (platform := Demo.not_root) Demo.argv_plain
    = Some EXIT_FAILURE ∧
  EvFprintf Stderr "Must be run with root privileges\n" []
    ∈ run_trace (platform := Demo.not_root) Demo.argv_plain ∧
  count_of is_bootstrap_effect
    (run_trace (platform := Demo.not_root) Demo.argv_plain) = 0%nat ∧
  count_of is_pidf_close
    (run_trace (platform := Demo.not_root) Demo.argv_plain) = 0%nat ∧
  count_of is_evtloop_run
    (run_trace (platform := Demo.not_root) Demo.argv_plain) = 0%nat.
Proof.
  split; [vm_compute; discriminate|]. split; [reflexivity|].
  split; [vm_compute; lia|].
  apply (without_root_nothing_is_started (platform := Demo.not_root)
           Demo.argv_plain);
    [vm_compute; discriminate|reflexivity|vm_compute; lia].
Defined.

(** When writing the pidfile fails, the descriptor 3 that
    [sys_pidf_open] returned is still closed before the exit. *)
Lemma pidfile_closed_after_write_failure :
  sys_pidf_open (Platform := Demo.pidf_write_fails) XNUMON_PIDFILE ≠ -1 ∧
  (0 < count_of is_pidf_open
         (run_trace (platform := Demo.pidf_write_fails) Demo.argv_plain))%nat ∧
  ∃ pre code,
    run_trace (platform := Demo.pidf_write_fails) Demo.argv_plain =
      (pre ++ [EvExit code])%list ∧
    exit_status (platform := Demo.pidf_write_fails) Demo.argv_plain
      = Some code ∧
    count_of is_exit pre = 0%nat ∧
    count_of is_pidf_close pre = 1%nat ∧
    count_of (is_pidf_close_of
                (sys_pidf_open (Platform := Demo.pidf_write_fails)
                   XNUMON_PIDFILE) XNUMON_PIDFILE) pre = 1%nat.
Proof.
  split; [vm_compute; discriminate|]. split; [vm_compute; lia|].
  apply (pidfile_closed_once_before_exit (platform := Demo.pidf_write_fails)
           Demo.argv_plain); [vm_compute; discriminate|vm_compute; lia].
Defined.

(** [-c] given first or last among the same overrides: the same run,
    which enters the event loop on the configuration of [/tmp/c.plist]
    with -d, -o and -l applied. *)
Lemma config_path_position_is_irrelevant :
  head Demo.argv_overrides = head Demo.argv_overrides_swapped ∧
  List.filter is_override
      (Getopt.getopt_pass Demo.argv_overrides OPTSTRING).1 =
    List.filter is_override
      (Getopt.getopt_pass Demo.argv_overrides_swapped OPTSTRING).1 ∧
  List.filter (λ o, negb (is_override o))
      (Getopt.getopt_pass Demo.argv_overrides OPTSTRING).1 =
    List.filter (λ o, negb (is_override o))
      (Getopt.getopt_pass Demo.argv_overrides_swapped OPTSTRING).1 ∧
  operands_left Demo.argv_overrides =
    operands_left Demo.argv_overrides_swapped ∧
  (0 < count_of is_evtloop_run
         (run_trace (platform := Demo.healthy) Demo.argv_overrides))%nat ∧
  run_trace (platform := Demo.healthy) Demo.argv_overrides =
    run_trace (platform := Demo.healthy) Demo.argv_overrides_swapped ∧
  exit_status (platform := Demo.healthy) Demo.argv_overrides =
    exit_status (platform := Demo.healthy) Demo.argv_overrides_swapped ∧
  count_of is_config_override
    (trace_before is_config_new
       (run_trace (platform := Demo.healthy) Demo.argv_overrides)) = 0%nat ∧
  ∃ c0 c,
    config_new (Platform := Demo.healthy)
      (last (cfgpath_args
               (List.filter (λ o, negb (is_override o))
                  (Getopt.getopt_pass Demo.argv_overrides OPTSTRING).1))
         ≫= strdup (Platform := Demo.healthy)) = Some c0 ∧
    c = foldl (apply_override (platform := Demo.healthy)) c0
          (List.filter is_override
             (Getopt.getopt_pass Demo.argv_overrides OPTSTRING).1) ∧
    EvEvtloopRun c ∈
      run_trace (platform := Demo.healthy) Demo.argv_overrides ∧
    EvEvtloopRun c ∈
      run_trace (platform := Demo.healthy) Demo.argv_overrides_swapped ∧
    List.filter is_config_write
      (trace_before is_evtloop_run
         (run_trace (platform := Demo.healthy) Demo.argv_overrides)) =
      EvConfigNew
        (last (cfgpath_args
                 (List.filter (λ o, negb (is_override o))
                    (Getopt.getopt_pass Demo.argv_overrides OPTSTRING).1))
           ≫= strdup (Platform := Demo.healthy)) ::
      List.flat_map override_call
        (List.filter is_override
           (Getopt.getopt_pass Demo.argv_overrides OPTSTRING).1).
Proof.
  split; [reflexivity|]. split; [reflexivity|]. split; [reflexivity|].
  split; [reflexivity|]. split; [vm_compute; lia|].
  destruct (passes_make_option_order_irrelevant (platform := Demo.healthy)
              Demo.argv_overrides Demo.argv_overrides_swapped
              eq_refl eq_refl eq_refl eq_refl) as (Ht & He & Hb & Hloop).
  split; [exact Ht|]. split; [exact He|]. split; [exact Hb|].
  apply Hloop. vm_compute; lia.
Defined.

(** A healthy run with -d, -o and -l: the event loop is entered, on the
    configuration that [config_new] loaded with the three overrides
    applied. *)
Lemma overrides_reach_the_event_loop :
  (0 < count_of is_evtloop_run
         (run_trace (platform := Demo.healthy) Demo.argv_overrides))%nat ∧
  ∃ c0 c,
    config_new (Platform := Demo.healthy)
      (chosen_cfgpath (platform := Demo.healthy)
         (Getopt.getopt_pass Demo.argv_overrides OPTSTRING).1) = Some c0 ∧
    c = foldl (apply_override (platform := Demo.healthy)) c0
          (List.filter is_override
             (Getopt.getopt_pass Demo.argv_overrides OPTSTRING).1) ∧
    EvEvtloopRun c ∈
      run_trace (platform := Demo.healthy) Demo.argv_overrides ∧
    List.filter is_config_write
      (trace_before is_evtloop_run
         (run_trace (platform := Demo.healthy) Demo.argv_overrides)) =
      EvConfigNew
        (chosen_cfgpath (platform := Demo.healthy)
           (Getopt.getopt_pass Demo.argv_overrides OPTSTRING).1) ::
      List.flat_map override_call
        (List.filter is_override
           (Getopt.getopt_pass Demo.argv_overrides OPTSTRING).1).
Proof.
  split; [vm_compute; lia|].
  apply (config_written_only_before_event_loop (platform := Demo.healthy)
           Demo.argv_overrides).
  vm_compute; lia.
Defined.

(** C5 as stated fails: a run that is refused root performs none of the
    bootstrap side effects, not each of them once. *)
Lemma unprivileged_run_skips_bootstrap :
  ¬ bootstrap_exactly_once
      (run_trace (platform := Demo.not_root) Demo.argv_plain).
Proof. intros [H _]. vm_compute in H. discriminate. Qed.


(* ===================================================================== *)
(** ** The further properties at work on concrete runs *)
(* ===================================================================== *)



(** [xnumon -d -x -V]: the unknown -x ends the run before -V is seen. *)
Lemma unknown_option_ends_the_run :
  first_pass_stop (platform := Demo.healthy)
    (Getopt.getopt_pass Demo.argv_unknown_option OPTSTRING).1
    = Some Case_qmark ∧
  exit_status (platform := Demo.healthy) Demo.argv_unknown_option
    = Some EXIT_FAILURE ∧
  ∃ t, Forall (λ e, is_strdup e = true) t ∧
       run_trace (platform := Demo.healthy) Demo.argv_unknown_option =
         (t ++ [EvExit EXIT_FAILURE])%list.
Proof.
  split; [reflexivity|].
  apply (getopt_error_exits_silently (platform := Demo.healthy)
           Demo.argv_unknown_option).
  reflexivity.
Defined.

(** Out of memory at the first -c. *)
Lemma first_config_path_cannot_be_copied :
  first_pass_stop (platform := Demo.no_memory)
    (Getopt.getopt_pass Demo.argv_two_paths OPTSTRING).1
    = Some Case_c ∧
  exit_status (platform := Demo.no_memory) Demo.argv_two_paths
    = Some EXIT_FAILURE ∧
  ∃ t, Forall (λ e, is_strdup e = true) t ∧
       run_trace (platform := Demo.no_memory) Demo.argv_two_paths =
         (t ++ [EvFprintf Stderr "Out of memory!\n" [];
                EvExit EXIT_FAILURE])%list.
Proof.
  split; [reflexivity|].
  apply (strdup_failure_is_fatal (platform := Demo.no_memory)
           Demo.argv_two_paths).
  reflexivity.
Defined.

(** [xnumon -d start]: the operand is refused, as root too. *)
Lemma operand_is_refused_as_root :
  operands_left Demo.argv_operand = true ∧
  first_pass_stop (platform := Demo.healthy)
    (Getopt.getopt_pass Demo.argv_operand OPTSTRING).1 = None ∧
  exit_status (platform := Demo.healthy) Demo.argv_operand
    = Some EXIT_FAILURE ∧
  count_of is_getuid
    (run_trace (platform := Demo.healthy) Demo.argv_operand) = 0%nat ∧
  count_of is_bootstrap_effect
    (run_trace (platform := Demo.healthy) Demo.argv_operand) = 0%nat ∧
  count_of is_evtloop_run
    (run_trace (platform := Demo.healthy) Demo.argv_operand) = 0%nat.
Proof.
  split; [reflexivity|]. split; [reflexivity|].
  apply (operands_are_rejected (platform := Demo.healthy)
           Demo.argv_operand); reflexivity.
Defined.

(** No configuration file at the default path. *)
Lemma missing_configuration_ends_the_run :
  first_pass_stop (platform := Demo.no_config)
    (Getopt.getopt_pass Demo.argv_plain OPTSTRING).1 = None ∧
  config_new (Platform := Demo.no_config)
    (chosen_cfgpath (platform := Demo.no_config)
       (Getopt.getopt_pass Demo.argv_plain OPTSTRING).1) = None ∧
  exit_status (platform := Demo.no_config) Demo.argv_plain
    = Some EXIT_FAILURE ∧
  EvFprintf Stderr "Failed to load configuration!\n" []
    ∈ run_trace (platform := Demo.no_config) Demo.argv_plain ∧
  count_of is_config_override
    (run_trace (platform := Demo.no_config) Demo.argv_plain) = 0%nat ∧
  count_of is_config_free
    (run_trace (platform := Demo.no_config) Demo.argv_plain) = 0%nat ∧
  count_of is_getuid
    (run_trace (platform := Demo.no_config) Demo.argv_plain) = 0%nat ∧
  count_of is_evtloop_run
    (run_trace (platform := Demo.no_config) Demo.argv_plain) = 0%nat.
Proof.
  split; [reflexivity|]. split; [reflexivity|].
  apply (config_load_failure_is_fatal (platform := Demo.no_config)
           Demo.argv_plain); reflexivity.
Defined.

(** The healthy run with overrides did pass every startup step. *)
Lemma healthy_run_passed_every_step :
  (0 < count_of is_evtloop_run
         (run_trace (platform := Demo.healthy) Demo.argv_overrides))%nat ∧
  (getuid (Platform := Demo.healthy) = 0 ∨
   setuid (Platform := Demo.healthy) 0 ≠ -1) ∧
  policy_task_sched_priority (Platform := Demo.healthy) ≠ -1 ∧
  policy_thread_diskio_important (Platform := Demo.healthy) ≠ -1 ∧
  sys_pidf_open (Platform := Demo.healthy) XNUMON_PIDFILE ≠ -1 ∧
  sys_pidf_write (Platform := Demo.healthy)
    (sys_pidf_open (Platform := Demo.healthy) XNUMON_PIDFILE) ≠ -1 ∧
  ∃ c, cfg (configure (platform := Demo.healthy) Demo.argv_overrides
              initial_state).2 = Some c ∧
       sys_limit_nofile (Platform := Demo.healthy) (cfg_limit_nofile c)
         ≠ -1 ∧
       EvLimitNofile (cfg_limit_nofile c)
         ∈ run_trace (platform := Demo.healthy) Demo.argv_overrides ∧
       EvEvtloopRun c
         ∈ run_trace (platform := Demo.healthy) Demo.argv_overrides.
Proof.
  split; [vm_compute; lia|].
  apply (event_loop_entered_only_after_full_startup
           (platform := Demo.healthy) Demo.argv_overrides).
  vm_compute; lia.
Defined.

(** The plain healthy run exits with EXIT_SUCCESS, so its loop ran. *)
Lemma plain_success_came_from_the_loop :
  first_pass_stop (platform := Demo.healthy)
    (Getopt.getopt_pass Demo.argv_plain OPTSTRING).1 = None ∧
  exit_status (platform := Demo.healthy) Demo.argv_plain
    = Some EXIT_SUCCESS ∧
  count_of is_evtloop_run
    (run_trace (platform := Demo.healthy) Demo.argv_plain) = 1%nat ∧
  ∃ c, EvEvtloopRun c ∈ run_trace (platform := Demo.healthy) Demo.argv_plain
       ∧ evtloop_run (Platform := Demo.healthy) c ≠ -1.
Proof.
  split; [reflexivity|]. split; [reflexivity|].
  apply (success_means_event_loop_ran (platform := Demo.healthy)
           Demo.argv_plain); reflexivity.
Defined.

(** [xnumon -c /tmp/a.plist -d -c /tmp/b.plist] loads /tmp/b.plist. *)
Lemma second_config_path_is_loaded :
  first_pass_stop (platform := Demo.healthy)
    (Getopt.getopt_pass Demo.argv_two_paths OPTSTRING).1 = None ∧
  count_of is_config_new
    (run_trace (platform := Demo.healthy) Demo.argv_two_paths) = 1%nat ∧
  EvConfigNew
    (last (cfgpath_args (Getopt.getopt_pass Demo.argv_two_paths OPTSTRING).1)
     ≫= strdup (Platform := Demo.healthy))
    ∈ run_trace (platform := Demo.healthy) Demo.argv_two_paths.
Proof.
  split; [reflexivity|].
  apply (last_config_path_is_loaded (platform := Demo.healthy)
           Demo.argv_two_paths).
  reflexivity.
Defined.

(** The same run copies two paths and frees one. *)
Lemma first_config_path_copy_is_never_freed :
  first_pass_stop (platform := Demo.healthy)
    (Getopt.getopt_pass Demo.argv_two_paths OPTSTRING).1 = None ∧
  count_of is_strdup
    (run_trace (platform := Demo.healthy) Demo.argv_two_paths) =
    length (cfgpath_args (Getopt.getopt_pass Demo.argv_two_paths OPTSTRING).1)
  ∧
  count_of is_free_cfgpath
    (run_trace (platform := Demo.healthy) Demo.argv_two_paths) =
    (if chosen_cfgpath (platform := Demo.healthy)
          (Getopt.getopt_pass Demo.argv_two_paths OPTSTRING).1 is Some _
     then 1 else 0)%nat.
Proof.
  split; [reflexivity|].
  apply (config_path_copies_freed_at_most_once (platform := Demo.healthy)
           Demo.argv_two_paths).
  reflexivity.
Defined.
